(** * The agent runtime of packages/core/src/runtime.ts

    A shallow embedding of [AgentRuntime]: settings resolution, the plugin
    installer, the state composer with its per-message cache, the action
    dispatcher and the service and model registries, then the task worker
    registry, the event and evaluator runners, the embedding dimension
    set-up and the constructor, followed by the properties the
    specification states about them and by further properties of the
    code.

    Conventions of the embedding.
    - JavaScript values are the inductive [JS.value]; an object is the list
      of its own enumerable properties in enumeration order.
    - Objects that carry callbacks (providers, actions, services, plugins,
      model handlers) live in an immutable store [Heap] and are named by
      references, so that registering the same object twice is visible and
      callbacks can take the runtime as an argument.
    - [async] methods are run to completion one after the other; a rejected
      promise is the [Throw] outcome of the monad [M].
    - Logger lines of level warn and error and every call of a plugin
      supplied callback are recorded in the trace of the [World].
    - Action handlers, evaluator handlers and plugin initialisers act on
      the world; service factories and model handlers are functions of
      the runtime they are called with, and may throw. Providers come in
      two forms: as functions of the runtime, for the properties of what
      [composeState] makes of their results, and as computations that act
      on the world and may throw ([Effectful.composeState], which is
      [composeState] for providers of the first form), for the properties
      of what a call does to the runtime.
    - Where promises are awaited together, every callback acts when it is
      called; the times at which the promises of the providers, the
      validation predicates and the evaluator handlers settle are
      parameters. *)

From Stdlib Require Import ZArith Ascii.
From stdpp Require Import gmap strings list fin_maps pretty sorting.

Set Warnings "-register-all,-clear-no-such-hyp".

(** ** JavaScript values, objects and strings *)

Module JS.

Inductive value : Type :=
| VUndefined
| VNull
| VBool (b : bool)
| VNum (n : Z)
| VStr (s : string)
| VArr (elems : list value)
| VObj (props : list (string * value)).

(** Own enumerable string-keyed properties, in enumeration order. *)
Abbreviation obj := (list (string * value)).

(** ToBoolean. Numbers are integers here, so the only falsy number is 0. *)
Definition truthy (v : value) : bool :=
  match v with
  | VUndefined | VNull => false
  | VBool b => b
  | VNum n => negb (n =? 0)%Z
  | VStr s => negb (bool_decide (s = ""))
  | VArr _ | VObj _ => true
  end.

(** [a || b] *)
Definition or (a b : value) : value := if truthy a then a else b.

(** [typeof v === "object"]; note that [typeof null] is "object" too. *)
Definition typeof_object (v : value) : bool :=
  match v with
  | VNull | VArr _ | VObj _ => true
  | _ => false
  end.

Definition lookup (k : string) (o : obj) : option value :=
  snd <$> List.find (λ kv, bool_decide (kv.1 = k)) o.

Definition has (k : string) (o : obj) : bool :=
  bool_decide (k ∈ o.*1).

(** Array indices and the characters of a string are enumerated under
    their decimal keys. *)
Definition indexed (l : list value) : obj :=
  imap (λ i v, (pretty (N.of_nat i), v)) l.

Fixpoint chars (s : string) : list value :=
  match s with
  | EmptyString => []
  | String c s' => VStr (String c "") :: chars s'
  end.

(** What [{...v}], [Object.keys(v)] and [Object.assign(_, v)] enumerate. *)
Definition own_props (v : value) : obj :=
  match v with
  | VObj o => o
  | VArr l => indexed l
  | VStr s => indexed (chars s)
  | _ => []
  end.

(** [v?.[k]] and, for a [v] that is neither null nor undefined, [v[k]];
    own properties only (inherited ones such as [length] or [constructor]
    are not part of the model). *)
Definition get (v : value) (k : string) : value :=
  default VUndefined (lookup k (own_props v)).

(** A key is an array index when it is the canonical decimal form of an
    integer below 2^32 - 1; such keys are enumerated first, in ascending
    numeric order, before all other keys in insertion order. *)
Definition digit (c : ascii) : option N :=
  let n := N_of_ascii c in
  if ((48 <=? n) && (n <=? 57))%N then Some (n - 48)%N else None.

Fixpoint parse_digits (acc : N) (s : string) : option N :=
  match s with
  | EmptyString => Some acc
  | String c s' =>
      match digit c with
      | Some d => parse_digits (10 * acc + d)%N s'
      | None => None
      end
  end.

Definition array_index (k : string) : option N :=
  match k with
  | EmptyString => None
  | _ =>
      match parse_digits 0 k with
      | Some n =>
          if bool_decide (pretty n = k) && (n <? 4294967295)%N
          then Some n else None
      | None => None
      end
  end.

(** Position of a fresh index key [n]: before the first property that is
    not an index or is a larger index. *)
Fixpoint insert_index (n : N) (k : string) (v : value) (o : obj) : obj :=
  match o with
  | [] => [(k, v)]
  | (k', v') :: o' =>
      match array_index k' with
      | Some n' =>
          if (n' <? n)%N then (k', v') :: insert_index n k v o'
          else (k, v) :: o
      | None => (k, v) :: o
      end
  end.

Definition insert_new (k : string) (v : value) (o : obj) : obj :=
  match array_index k with
  | Some n => insert_index n k v o
  | None => o ++ [(k, v)]
  end.

(** Overwriting keeps the property where it is. *)
Definition overwrite (k : string) (v : value) (o : obj) : obj :=
  (λ kv, if bool_decide (kv.1 = k) then (k, v) else kv) <$> o.

(** [o[k] = v] *)
Definition set (k : string) (v : value) (o : obj) : obj :=
  if has k o then overwrite k v o else insert_new k v o.

(** [Object.assign(o, src)] for an object [src] given by its properties. *)
Definition assign (o : obj) (src : obj) : obj :=
  foldl (λ acc kv, set kv.1 kv.2 acc) o src.

(** ASCII part of [String.prototype.toLowerCase]; other code units are
    left as they are. *)
Definition lower_ascii (c : ascii) : ascii :=
  let n := N_of_ascii c in
  if ((65 <=? n) && (n <=? 90))%N then ascii_of_N (n + 32) else c.

Fixpoint toLowerCase (s : string) : string :=
  match s with
  | EmptyString => EmptyString
  | String c s' => String (lower_ascii c) (toLowerCase s')
  end.

Fixpoint drop_chars (n : nat) (s : string) : string :=
  match n, s with
  | O, _ => s
  | S n', String _ s' => drop_chars n' s'
  | S _, EmptyString => EmptyString
  end.

(** [s.replace(pat, rep)] with a string pattern: only the first occurrence
    of [pat] is replaced ([rep] without dollar patterns). *)
Fixpoint replace (pat rep s : string) : string :=
  if String.prefix pat s then rep +:+ drop_chars (String.length pat) s
  else match s with
       | EmptyString => EmptyString
       | String c s' => String c (replace pat rep s')
       end.

(** [s.includes(t)] *)
Fixpoint includes (s t : string) : bool :=
  String.prefix t s ||
  match s with
  | EmptyString => false
  | String _ s' => includes s' t
  end.

(** [l.join(sep)] on an array whose elements are strings or undefined:
    undefined elements are rendered as the empty string. *)
Definition join (sep : string) (l : list (option string)) : string :=
  String.concat sep (default "" <$> l).

(** [Array.prototype.sort] with a comparator: a stable sort. *)
Fixpoint insert_sorted {A} (cmp : A → A → Z) (x : A) (l : list A) : list A :=
  match l with
  | [] => [x]
  | y :: l' =>
      if (cmp x y <=? 0)%Z then x :: l else y :: insert_sorted cmp x l'
  end.

Definition sort {A} (cmp : A → A → Z) (l : list A) : list A :=
  foldr (insert_sorted cmp) [] l.

End JS.

(** ** Data model *)

Abbreviation ref := nat.
Abbreviation UUID := string.

(** The line feed used to join provider texts. *)
Definition nl : string := String (ascii_of_nat 10) EmptyString.

(** Modelled from the spec: the declarations of [./types] are not among
    the sources, so the record types below have the fields the runtime
    reads and the data model of the specification names. A memory;
    [content_actions] is [content?.actions]. *)
Record Memory := {
  id : UUID;
  entityId : UUID;
  roomId : UUID;
  content_text : string;
  content_actions : option (list string);
}.

(** Entry type of [stateCache], as declared with the field. *)
Record State := {
  values : JS.obj;
  data : JS.obj;
  text : string;
}.

Record Character := {
  character_name : string;
  secrets : option JS.obj;
  settings : option JS.obj;
}.

(** The fields of [AgentRuntime]. Callback-bearing objects are held by
    reference. *)
Record Runtime := {
  agentId : UUID;
  character : Character;
  adapter : option ref;
  actions : list ref;
  evaluators : list ref;
  providers : list ref;
  plugins : list ref;
  events : gmap string (list ref);
  stateCache : gmap UUID State;
  services : gmap string ref;
  models : gmap string (list ref);
  routes : list ref;
}.

Inductive Error :=
| NoHandlerFound (modelKey : string)
| TypeError
| Thrown (reason : string).

(** Entries written through [getDatabaseAdapter().log]. *)
Inductive LogEntry :=
| LogAction (entity room : UUID) (action : string) (message : string)
    (messageId : UUID) (state : State) (responses : list Memory)
| LogUseModel (entity room : UUID) (modelType modelKey : string)
    (params : list string) (response : JS.value).

(** Observable steps: warn and error lines of the logger, and calls of
    callbacks supplied by plugins. *)
Inductive Event :=
| WarnNoActionInResponse
| ErrorNoActionFor (requested : string)
| ErrorNoActionIn (response : Memory)
| ErrorNoHandler (action : string)
| ErrorThrown (e : Error)
| WarnAdapterAlreadyRegistered
| WarnServiceAlreadyRegistered (serviceType : string)
| ProviderGet (provider : ref) (message : Memory) (cached : State)
| HandlerCall (action : ref) (message : Memory) (state : State)
    (callback : option ref) (responses : list Memory)
| ServiceStart (service : ref)
| ModelCall (handler : ref) (params : JS.value)
| PluginInit (plugin : ref).

Record World := {
  rt : Runtime;
  auditLog : list LogEntry;
  trace : list Event;
}.

(** ** The monad of runtime methods: state and exceptions *)

Inductive Outcome (A : Type) :=
| Return (a : A)
| Throw (e : Error).
Arguments Return {A} a.
Arguments Throw {A} e.

Definition M (A : Type) : Type := World → Outcome A * World.

Definition ret {A} (a : A) : M A := λ w, (Return a, w).
Definition throw {A} (e : Error) : M A := λ w, (Throw e, w).
Definition bind {A B} (m : M A) (k : A → M B) : M B :=
  λ w, match m w with
       | (Return a, w') => k a w'
       | (Throw e, w') => (Throw e, w')
       end.
(** [try { m } catch (e) { h e }] *)
Definition catch {A} (m : M A) (h : Error → M A) : M A :=
  λ w, match m w with
       | (Return a, w') => (Return a, w')
       | (Throw e, w') => h e w'
       end.
(** The settled promise of [m]. *)
Definition settle {A} (m : M A) : M (Outcome A) :=
  λ w, let '(o, w') := m w in (Return o, w').

Definition this : M Runtime := λ w, (Return (rt w), w).
Definition modify (f : Runtime → Runtime) : M unit :=
  λ w, (Return tt, {| rt := f (rt w); auditLog := auditLog w; trace := trace w |}).
Definition emit (e : Event) : M unit :=
  λ w, (Return tt, {| rt := rt w; auditLog := auditLog w; trace := trace w ++ [e] |}).
Definition audit (l : LogEntry) : M unit :=
  λ w, (Return tt, {| rt := rt w; auditLog := auditLog w ++ [l]; trace := trace w |}).

Declare Scope rt_scope.
Delimit Scope rt_scope with rt.
Notation "'let*' x := m 'in' k" := (bind m (λ x, k))
  (at level 10, x pattern, m at level 100, k at level 200) : rt_scope.
Notation "m ;; k" := (bind m (λ _, k))
  (at level 100, k at level 200, right associativity) : rt_scope.
Open Scope rt_scope.

(** [for (const x of l) body(x)] *)
Fixpoint for_each {A} (l : list A) (body : A → M unit) : M unit :=
  match l with
  | [] => ret tt
  | x :: l' => body x ;; for_each l' body
  end.

(** ** Objects held by plugins *)

(** Modelled from the spec: a provider produces [{values, text, data}].
    The code reads [values] through [result.values || {}], so it is any
    value here, and it filters [text] with [text !== ""], which lets a
    missing text pass. *)
Record ProviderResult := {
  result_values : JS.value;
  result_data : JS.value;
  result_text : option string;
}.

(** Modelled from the spec: a provider has a name, a declared position
    (default 0), the private and dynamic flags (unset is false) and the
    operation [get(runtime, message, cachedState)]. *)
Record Provider := {
  provider_name : string;
  position : option Z;
  private : bool;
  dynamic : bool;
  provider_get : Runtime → Memory → State → ProviderResult;
}.

(** [handler(runtime, message, state, {}, callback, responses)] *)
Definition Handler : Type :=
  Runtime → Memory → State → option ref → list Memory → M unit.

(** Modelled from the spec: an action has a name, an alias list and a
    handler; the code tests both [similes] and [handler] for presence. *)
Record Action := {
  action_name : string;
  similes : option (list string);
  handler : option Handler;
}.

(** Modelled from the spec: a service descriptor has a type tag and an
    async factory that produces the running instance from the runtime. *)
Record Service := {
  serviceType : option string;
  start : Runtime → Outcome ref;
}.

Definition ModelHandler : Type := Runtime → JS.value → Outcome JS.value.

(** Modelled from the spec: the plugin manifest. [models] and [events]
    are given by their entries, in the order of [Object.entries]. *)
Record Plugin := {
  plugin_name : string;
  plugin_adapter : option ref;
  plugin_actions : option (list ref);
  plugin_evaluators : option (list ref);
  plugin_providers : option (list ref);
  plugin_models : option (list (string * ref));
  plugin_routes : option (list ref);
  plugin_events : option (list (string * list ref));
  plugin_services : option (list ref);
  plugin_init : option (JS.value → Runtime → M unit);
  plugin_config : JS.value;
}.

Record Heap := {
  providerAt : ref → Provider;
  actionAt : ref → Action;
  serviceAt : ref → Service;
  modelAt : ref → ModelHandler;
  pluginAt : ref → Plugin;
}.

(** ** Field updates of the runtime *)

Definition with_character (c : Character) (r : Runtime) : Runtime :=
  {| agentId := agentId r; character := c; adapter := adapter r;
     actions := actions r; evaluators := evaluators r;
     providers := providers r; plugins := plugins r; events := events r;
     stateCache := stateCache r; services := services r;
     models := models r; routes := routes r |}.

Definition with_adapter (a : option ref) (r : Runtime) : Runtime :=
  {| agentId := agentId r; character := character r; adapter := a;
     actions := actions r; evaluators := evaluators r;
     providers := providers r; plugins := plugins r; events := events r;
     stateCache := stateCache r; services := services r;
     models := models r; routes := routes r |}.

Definition with_actions (l : list ref) (r : Runtime) : Runtime :=
  {| agentId := agentId r; character := character r; adapter := adapter r;
     actions := l; evaluators := evaluators r;
     providers := providers r; plugins := plugins r; events := events r;
     stateCache := stateCache r; services := services r;
     models := models r; routes := routes r |}.

Definition with_evaluators (l : list ref) (r : Runtime) : Runtime :=
  {| agentId := agentId r; character := character r; adapter := adapter r;
     actions := actions r; evaluators := l;
     providers := providers r; plugins := plugins r; events := events r;
     stateCache := stateCache r; services := services r;
     models := models r; routes := routes r |}.

Definition with_providers (l : list ref) (r : Runtime) : Runtime :=
  {| agentId := agentId r; character := character r; adapter := adapter r;
     actions := actions r; evaluators := evaluators r;
     providers := l; plugins := plugins r; events := events r;
     stateCache := stateCache r; services := services r;
     models := models r; routes := routes r |}.

Definition with_plugins (l : list ref) (r : Runtime) : Runtime :=
  {| agentId := agentId r; character := character r; adapter := adapter r;
     actions := actions r; evaluators := evaluators r;
     providers := providers r; plugins := l; events := events r;
     stateCache := stateCache r; services := services r;
     models := models r; routes := routes r |}.

Definition with_events (m : gmap string (list ref)) (r : Runtime) : Runtime :=
  {| agentId := agentId r; character := character r; adapter := adapter r;
     actions := actions r; evaluators := evaluators r;
     providers := providers r; plugins := plugins r; events := m;
     stateCache := stateCache r; services := services r;
     models := models r; routes := routes r |}.

Definition with_stateCache (m : gmap UUID State) (r : Runtime) : Runtime :=
  {| agentId := agentId r; character := character r; adapter := adapter r;
     actions := actions r; evaluators := evaluators r;
     providers := providers r; plugins := plugins r; events := events r;
     stateCache := m; services := services r;
     models := models r; routes := routes r |}.

Definition with_services (m : gmap string ref) (r : Runtime) : Runtime :=
  {| agentId := agentId r; character := character r; adapter := adapter r;
     actions := actions r; evaluators := evaluators r;
     providers := providers r; plugins := plugins r; events := events r;
     stateCache := stateCache r; services := m;
     models := models r; routes := routes r |}.

Definition with_models (m : gmap string (list ref)) (r : Runtime) : Runtime :=
  {| agentId := agentId r; character := character r; adapter := adapter r;
     actions := actions r; evaluators := evaluators r;
     providers := providers r; plugins := plugins r; events := events r;
     stateCache := stateCache r; services := services r;
     models := m; routes := routes r |}.

Definition with_routes (l : list ref) (r : Runtime) : Runtime :=
  {| agentId := agentId r; character := character r; adapter := adapter r;
     actions := actions r; evaluators := evaluators r;
     providers := providers r; plugins := plugins r; events := events r;
     stateCache := stateCache r; services := services r;
     models := models r; routes := l |}.

(** ** Settings *)

(** [setSetting(key, value, secret = false)]. The assignment needs the
    target object to exist. It is embedded as the write of an own
    property, which it is for every key but [__proto__]: under that key
    the assignment goes to the accessor of the prototype, which replaces
    the prototype or does nothing and creates no property. Objects have
    no prototype here, so the properties of [setSetting] are stated for
    the other keys. *)
Definition setSetting (key : string) (value : JS.value) (secret : bool)
  : M unit :=
  let* r := this in
  let c := character r in
  if secret then
    match secrets c with
    | Some o =>
        modify (with_character
          {| character_name := character_name c;
             secrets := Some (JS.set key value o); settings := settings c |})
    | None => throw TypeError
    end
  else
    match settings c with
    | Some o =>
        modify (with_character
          {| character_name := character_name c;
             secrets := secrets c; settings := Some (JS.set key value o) |})
    | None => throw TypeError
    end.

(** [o?.[key]] for an optional object. *)
Definition opt_get (o : option JS.obj) (key : string) : JS.value :=
  match o with
  | Some o => JS.get (JS.VObj o) key
  | None => JS.VUndefined
  end.

(** [o?.secrets?.[key]] *)
Definition opt_get_nested (o : option JS.obj) (key : string) : JS.value :=
  match opt_get o "secrets" with
  | JS.VUndefined | JS.VNull => JS.VUndefined
  | v => JS.get v key
  end.

(** [getSetting(key)]. [environment] is the [settings] object exported by
    the environment module. *)
Definition getSetting (environment : JS.obj) (r : Runtime) (key : string)
  : JS.value :=
  let c := character r in
  let value :=
    JS.or
      (JS.or
         (JS.or (opt_get (secrets c) key) (opt_get (settings c) key))
         (opt_get_nested (settings c) key))
      (JS.get (JS.VObj environment) key) in
  match value with
  | JS.VStr "true" => JS.VBool true
  | JS.VStr "false" => JS.VBool false
  | _ => JS.or value JS.VNull
  end.

(** ** Registries *)

Section Methods.
Context (H : Heap).

Definition getDatabaseAdapter : M (option ref) :=
  let* r := this in ret (adapter r).

Definition registerDatabaseAdapter (a : ref) : M unit :=
  let* r := this in
  match adapter r with
  | Some _ => emit WarnAdapterAlreadyRegistered
  | None => modify (with_adapter (Some a))
  end.

Definition registerProvider (p : ref) : M unit :=
  modify (λ r, with_providers (providers r ++ [p]) r).

Definition registerAction (a : ref) : M unit :=
  modify (λ r, with_actions (actions r ++ [a]) r).

Definition registerEvaluator (e : ref) : M unit :=
  modify (λ r, with_evaluators (evaluators r ++ [e]) r).

Definition registerContextProvider (p : ref) : M unit :=
  modify (λ r, with_providers (providers r ++ [p]) r).

(** [adapter.log(entry)] on the bound adapter; calling it on an unbound
    adapter is a TypeError. *)
Definition adapter_log (l : LogEntry) : M unit :=
  let* a := getDatabaseAdapter in
  match a with
  | Some _ => audit l
  | None => throw TypeError
  end.

(** *** Models

    A model type is a string, so that [modelKey] is [modelType]; the
    [ModelTypes] table of the other branch is not among the sources. *)

Definition registerModel (modelType : string) (h : ref) : M unit :=
  let modelKey := modelType in
  let* r := this in
  (if bool_decide (is_Some (models r !! modelKey)) then ret tt
   else modify (λ r, with_models (<[modelKey := []]> (models r)) r)) ;;
  modify (λ r, with_models
                 (alter (λ l, l ++ [h]) modelKey (models r)) r).

Definition getModel (r : Runtime) (modelType : string) : option ref :=
  let modelKey := modelType in
  match models r !! modelKey with
  | Some (h :: _) => Some h
  | _ => None
  end.

(** [Array.isArray(v) && v.every((x) => typeof x === "number")] *)
Definition number_array (v : JS.value) : bool :=
  match v with
  | JS.VArr l => forallb (λ x, match x with JS.VNum _ => true | _ => false end) l
  | _ => false
  end.

Definition useModel (modelType : string) (params : JS.value) : M JS.value :=
  let modelKey := modelType in
  let* r := this in
  match getModel r modelKey with
  | None => throw (NoHandlerFound modelKey)
  | Some model =>
      emit (ModelCall model params) ;;
      match modelAt H model r params with
      | Throw e => throw e
      | Return response =>
          adapter_log
            (LogUseModel (agentId r) (agentId r) modelType modelKey
               (if JS.truthy params then (JS.own_props params).*1 else [])
               (if number_array response then JS.VStr "[array]"
                else response)) ;;
          ret response
      end
  end.

(** *** Events *)

Definition registerEvent (event : string) (h : ref) : M unit :=
  let* r := this in
  (if bool_decide (is_Some (events r !! event)) then ret tt
   else modify (λ r, with_events (<[event := []]> (events r)) r)) ;;
  modify (λ r, with_events (alter (λ l, l ++ [h]) event (events r)) r).

(** *** Services *)

(** A service type that passes [if (!serviceType) return]. *)
Definition service_type (s : Service) : option string :=
  match serviceType s with
  | Some ty => if bool_decide (ty = "") then None else Some ty
  | None => None
  end.

(** [registerService] up to its [await]: the checks and the call of the
    start factory. The result is the type and the started instance when
    the factory was called and resolved. *)
Definition startService (service : ref) : M (option (string * ref)) :=
  match service_type (serviceAt H service) with
  | None => ret None
  | Some ty =>
      let* r := this in
      if bool_decide (is_Some (services r !! ty)) then
        emit (WarnServiceAlreadyRegistered ty) ;; ret None
      else
        emit (ServiceStart service) ;;
        match start (serviceAt H service) r with
        | Throw e => throw e
        | Return instance => ret (Some (ty, instance))
        end
  end.

(** [registerService] after its [await]. *)
Definition storeService (started : option (string * ref)) : M unit :=
  match started with
  | Some (ty, instance) =>
      modify (λ r, with_services (<[ty := instance]> (services r)) r)
  | None => ret tt
  end.

Definition registerService (service : ref) : M unit :=
  let* started := startService service in storeService started.

(** [await Promise.all(services.map((s) => this.registerService(s)))]:
    every call runs up to its [await] before any of them resumes; the
    started instances are then stored in the order of the calls and the
    first rejection, if any, is the result. *)
Fixpoint first_rejection {A} (l : list (Outcome A)) : option Error :=
  match l with
  | [] => None
  | Throw e :: _ => Some e
  | Return _ :: l' => first_rejection l'
  end.

Fixpoint launch_services (l : list ref)
  : M (list (Outcome (option (string * ref)))) :=
  match l with
  | [] => ret []
  | s :: l' =>
      let* o := settle (startService s) in
      let* os := launch_services l' in
      ret (o :: os)
  end.

Definition registerServices (l : list ref) : M unit :=
  let* os := launch_services l in
  for_each os (λ o, match o with
                    | Return started => storeService started
                    | Throw _ => ret tt
                    end) ;;
  match first_rejection os with
  | Some e => throw e
  | None => ret tt
  end.

(** ** State composer *)

Definition emptyState : State := {| values := []; data := []; text := "" |}.

(** [Array.from(new Set(l))]: the first occurrence of every reference. *)
Fixpoint distinct (l : list ref) : list ref :=
  match l with
  | [] => []
  | x :: l' => x :: filter (λ y, y ≠ x) (distinct l')
  end.

(** [p.position || 0] *)
Definition position_or_0 (p : Provider) : Z :=
  match position p with
  | Some z => z
  | None => 0
  end.

Definition nonempty (s : string) : bool := negb (bool_decide (s = "")).

(** A list argument that passes [l && l.length > 0]. *)
Definition given (l : option (list string)) : list string :=
  match l with
  | Some l => l
  | None => []
  end.

(** The cached snapshot of the message, or the empty one. *)
Definition cached_state (r : Runtime) (message : Memory) : State :=
  default emptyState (stateCache r !! id message).

(** [cachedState.data.providers] *)
Definition cached_providers (cachedState : State) : JS.value :=
  JS.get (JS.VObj (data cachedState)) "providers".

Definition existingProviderNames (cachedState : State) : list string :=
  if JS.truthy (cached_providers cachedState)
  then (JS.own_props (cached_providers cachedState)).*1
  else [].

(** Steps 1 and 2: the names to fetch. *)
Definition providerNames (r : Runtime) (cachedState : State)
    (filterList includeList : option (list string)) : gset string :=
  let base : gset string :=
    match given filterList with
    | _ :: _ => list_to_set (given filterList)
    | [] =>
        list_to_set
          ((λ p, provider_name (providerAt H p)) <$>
             filter (λ p, private (providerAt H p) = false
                          ∧ dynamic (providerAt H p) = false
                          ∧ provider_name (providerAt H p)
                              ∉ existingProviderNames cachedState)
               (providers r))
    end in
  base ∪ list_to_set (given includeList).

(** The provider objects of these names, once each, by position. *)
Definition providersToGet (r : Runtime) (cachedState : State)
    (filterList includeList : option (list string)) : list ref :=
  JS.sort
    (λ a b, (position_or_0 (providerAt H a)
             - position_or_0 (providerAt H b))%Z)
    (distinct
       (filter (λ p, provider_name (providerAt H p)
                       ∈ providerNames r cachedState filterList includeList)
          (providers r))).

(** One element of [providerData]: the result with its [providerName]. *)
Definition fetch (r : Runtime) (message : Memory) (cachedState : State)
    (p : ref) : ProviderResult * string :=
  (provider_get (providerAt H p) r message cachedState,
   provider_name (providerAt H p)).

Definition combinedValues (cachedState : State)
    (providerData : list (ProviderResult * string)) : JS.obj :=
  let existingProviderData :=
    JS.or (cached_providers cachedState) (JS.VObj []) in
  foldl (λ acc result,
           JS.set result.2
             (JS.or (result_values result.1) (JS.VObj [])) acc)
    (JS.own_props existingProviderData) providerData.

Definition newProvidersText (providerData : list (ProviderResult * string))
  : string :=
  JS.join nl
    (filter (λ t, t ≠ Some "")
       ((λ result, result_text result.1) <$> providerData)).

Definition providersText (cachedState : State)
    (providerData : list (ProviderResult * string)) : string :=
  if nonempty (text cachedState) && nonempty (newProvidersText providerData)
  then text cachedState +:+ nl +:+ newProvidersText providerData
  else if nonempty (newProvidersText providerData)
       then newProvidersText providerData
  else if nonempty (text cachedState) then text cachedState
  else "".

(** The merge of the provider values over the cached values, in the
    enumeration order of [combined]. *)
Definition merged_values (cachedState : State) (combined : JS.obj) : JS.obj :=
  foldl (λ acc kv,
           if JS.truthy kv.2 && JS.typeof_object kv.2
           then JS.assign acc (JS.own_props kv.2) else acc)
    (values cachedState) combined.

Definition newState (cachedState : State)
    (providerData : list (ProviderResult * string)) : State :=
  {| values :=
       JS.set "providers" (JS.VStr (providersText cachedState providerData))
         (merged_values cachedState
            (combinedValues cachedState providerData));
     data :=
       JS.set "providers"
         (JS.VObj (combinedValues cachedState providerData))
         (data cachedState);
     text := providersText cachedState providerData |}.

Definition composeState (message : Memory)
    (filterList includeList : option (list string)) : M State :=
  let* r := this in
  let cachedState := cached_state r message in
  let selected := providersToGet r cachedState filterList includeList in
  for_each selected (λ p, emit (ProviderGet p message cachedState)) ;;
  let providerData := fetch r message cachedState <$> selected in
  let composed := newState cachedState providerData in
  modify (λ r, with_stateCache (<[id message := composed]> (stateCache r)) r) ;;
  ret composed.

(** ** Action dispatcher *)

Definition normalizeAction (action : string) : string :=
  JS.replace "_" "" (JS.toLowerCase action).

(** The two-way containment test of the lookup, on a registered name or
    simile. *)
Definition fuzzy_match (normalizedResponseAction candidate : string) : bool :=
  JS.includes (JS.replace "_" "" (JS.toLowerCase candidate))
    normalizedResponseAction
  || JS.includes normalizedResponseAction
       (JS.replace "_" "" (JS.toLowerCase candidate)).

Definition find_by_name (r : Runtime) (normalizedResponseAction : string)
  : option ref :=
  List.find
    (λ a, fuzzy_match normalizedResponseAction (action_name (actionAt H a)))
    (actions r).

(** The simile loop: the first action one of whose similes matches; the
    matching simile is tested for truthiness. *)
Definition find_by_simile (r : Runtime) (normalizedResponseAction : string)
  : option ref :=
  List.find
    (λ a, match similes (actionAt H a) with
          | Some l =>
              match List.find (fuzzy_match normalizedResponseAction) l with
              | Some simileAction => nonempty simileAction
              | None => false
              end
          | None => false
          end)
    (actions r).

(** The loop over the actions of one response; [state] is the parameter
    of [processActions], assigned at the top of every iteration. *)
Fixpoint action_loop (message : Memory) (responses : list Memory)
    (callback : option ref) (response : Memory)
    (actions : list string) (state : option State) : M (option State) :=
  match actions with
  | [] => ret state
  | responseAction :: rest =>
      let* composed := composeState message (Some ["RECENT_MESSAGES"]) None in
      let state := Some composed in
      let normalizedResponseAction := normalizeAction responseAction in
      let* r := this in
      let action := find_by_name r normalizedResponseAction in
      match action with
      | Some _ => ret tt
      | None => emit (ErrorNoActionFor responseAction)
      end ;;
      let action :=
        match action with
        | Some a => Some a
        | None => find_by_simile r normalizedResponseAction
        end in
      match action with
      | None =>
          emit (ErrorNoActionIn response) ;;
          action_loop message responses callback response rest state
      | Some a =>
          match handler (actionAt H a) with
          | None =>
              emit (ErrorNoHandler (action_name (actionAt H a))) ;;
              action_loop message responses callback response rest state
          | Some handle =>
              catch
                (emit (HandlerCall a message (default emptyState state)
                         callback responses) ;;
                 handle r message (default emptyState state)
                   callback responses ;;
                 adapter_log
                   (LogAction (entityId message) (roomId message)
                      (action_name (actionAt H a)) (content_text message)
                      (id message) (default emptyState state) responses))
                (λ error, emit (ErrorThrown error) ;; throw error) ;;
              action_loop message responses callback response rest state
          end
      end
  end.

Fixpoint response_loop (message : Memory) (responses : list Memory)
    (callback : option ref) (todo : list Memory) (state : option State)
  : M unit :=
  match todo with
  | [] => ret tt
  | response :: todo' =>
      match content_actions response with
      | None | Some [] =>
          emit WarnNoActionInResponse ;;
          response_loop message responses callback todo' state
      | Some actions =>
          let* state :=
            action_loop message responses callback response actions state in
          response_loop message responses callback todo' state
      end
  end.

Definition processActions (message : Memory) (responses : list Memory)
    (state : option State) (callback : option ref) : M unit :=
  response_loop message responses callback responses state.

(** ** Plugin installer *)

Definition when_present {A} (o : option A) (f : A → M unit) : M unit :=
  match o with
  | Some a => f a
  | None => ret tt
  end.

(** [plugin] is [None] for a null or undefined argument. *)
Definition registerPlugin (plugin : option ref) : M unit :=
  match plugin with
  | None => ret tt
  | Some p =>
      let pl := pluginAt H p in
      let* r := this in
      (if existsb (λ q, bool_decide (plugin_name (pluginAt H q)
                                     = plugin_name pl)) (plugins r)
       then ret tt
       else modify (λ r, with_plugins (plugins r ++ [p]) r)) ;;
      when_present (plugin_adapter pl) registerDatabaseAdapter ;;
      when_present (plugin_actions pl) (λ l, for_each l registerAction) ;;
      when_present (plugin_evaluators pl) (λ l, for_each l registerEvaluator) ;;
      when_present (plugin_providers pl)
        (λ l, for_each l registerContextProvider) ;;
      when_present (plugin_models pl)
        (λ l, for_each l (λ entry, registerModel entry.1 entry.2)) ;;
      when_present (plugin_routes pl)
        (λ l, for_each l
                (λ route, modify (λ r, with_routes (routes r ++ [route]) r))) ;;
      when_present (plugin_events pl)
        (λ l, for_each l (λ entry, for_each entry.2 (registerEvent entry.1))) ;;
      when_present (plugin_services pl) registerServices ;;
      when_present (plugin_init pl)
        (λ init, emit (PluginInit p) ;;
                 let* r := this in init (plugin_config pl) r)
  end.

End Methods.

(** * Specification-side definitions *)

(** The world after some more trace events. *)
Definition logged (es : list Event) (w : World) : World :=
  {| rt := rt w; auditLog := auditLog w; trace := trace w ++ es |}.

(** The world after [composeState] stored [st] for the message and
    invoked the providers [sel] on the cached state [cs]. *)
Definition composed_world (message : Memory) (cs st : State)
    (sel : list ref) (w : World) : World :=
  {| rt := with_stateCache (<[id message := st]> (stateCache (rt w))) (rt w);
     auditLog := auditLog w;
     trace := trace w ++ ((λ p, ProviderGet p message cs) <$> sel) |}.

(** The providers a trace shows to have been invoked. *)
Definition invoked_providers (tr : list Event) : list ref :=
  omap (λ e, match e with ProviderGet p _ _ => Some p | _ => None end) tr.

(** Normalisation as the specification words it: lower-case and delete
    every underscore. *)
Fixpoint strip_underscores (s : string) : string :=
  match s with
  | EmptyString => EmptyString
  | String c s' =>
      if bool_decide (c = "_"%char) then strip_underscores s'
      else String c (strip_underscores s')
  end.

Definition spec_normalize (s : string) : string :=
  strip_underscores (JS.toLowerCase s).

(** The four places [getSetting] reads, in priority order: the values
    found under [key] and the objects themselves. *)
Definition setting_candidates (environment : JS.obj) (r : Runtime)
    (key : string) : list JS.value :=
  [ opt_get (secrets (character r)) key;
    opt_get (settings (character r)) key;
    opt_get_nested (settings (character r)) key;
    JS.get (JS.VObj environment) key ].

Definition setting_sources (environment : JS.obj) (r : Runtime)
  : list JS.value :=
  [ from_option JS.VObj JS.VUndefined (secrets (character r));
    from_option JS.VObj JS.VUndefined (settings (character r));
    opt_get (settings (character r)) "secrets";
    JS.VObj environment ].

(** The coercions of the result. *)
Definition coerce_setting (v : JS.value) : JS.value :=
  match v with
  | JS.VStr "true" => JS.VBool true
  | JS.VStr "false" => JS.VBool false
  | _ => if JS.truthy v then v else JS.VNull
  end.

(** [getSetting] read as "the value held by the highest-priority source
    that contains the key", coerced. *)
Definition spec_getSetting (environment : JS.obj) (r : Runtime)
    (key : string) : JS.value :=
  coerce_setting
    (match List.find (λ src, JS.has key (JS.own_props src))
             (setting_sources environment r) with
     | Some src => JS.get src key
     | None => JS.VUndefined
     end).



(** The world after a [registerService] call that started and stored
    [instance]. *)
Definition registered_world (s : ref) (ty : string) (instance : ref)
    (w : World) : World :=
  {| rt := with_services (<[ty := instance]> (services (rt w))) (rt w);
     auditLog := auditLog w;
     trace := trace w ++ [ServiceStart s] |}.

(** The state and the world that the recomposition at the top of an
    iteration of the action loop leaves. *)
Definition recomposed_state (H : Heap) (message : Memory) (w : World)
  : State :=
  match (composeState H message (Some ["RECENT_MESSAGES"]) None w).1 with
  | Return st => st
  | Throw _ => emptyState
  end.

Definition recomposed_world (H : Heap) (message : Memory) (w : World)
  : World :=
  (composeState H message (Some ["RECENT_MESSAGES"]) None w).2.

(** The action a requested name resolves to: by name first, by simile
    otherwise; and the error line of a failed lookup by name. *)
Definition resolve (H : Heap) (r : Runtime) (requested : string)
  : option ref :=
  match find_by_name H r (normalizeAction requested) with
  | Some a => Some a
  | None => find_by_simile H r (normalizeAction requested)
  end.

Definition lookup_errors (H : Heap) (r : Runtime) (requested : string)
  : list Event :=
  match find_by_name H r (normalizeAction requested) with
  | Some _ => []
  | None => [ErrorNoActionFor requested]
  end.

(** The rest of a [processActions] call: the remaining actions of the
    current response, then the remaining responses. *)
Definition continue_with (H : Heap) (message : Memory)
    (responses : list Memory) (callback : option ref) (response : Memory)
    (rest : list string) (later : list Memory) (state : State) : M unit :=
  let* state :=
    action_loop H message responses callback response rest (Some state) in
  response_loop H message responses callback later state.

(** The world after the audit entry of an executed action. *)
Definition audited (l : LogEntry) (w : World) : World :=
  {| rt := rt w; auditLog := auditLog w ++ [l]; trace := trace w |}.

(** The providers fetched by default, as the specification words them:
    the registered providers that are neither private nor dynamic, in
    registration order. *)
Definition default_providers (H : Heap) (r : Runtime) : list ref :=
  filter (λ p, private (providerAt H p) = false
               ∧ dynamic (providerAt H p) = false)
    (providers r).

(** The registered providers that bear the name of a default provider,
    once each, in registration order. *)
Definition fetched_by_default (H : Heap) (r : Runtime) : list ref :=
  distinct
    (filter (λ p, provider_name (providerAt H p)
                    ∈ (λ q, provider_name (providerAt H q))
                        <$> default_providers H r)
       (providers r)).

Definition provider_names (H : Heap) (r : Runtime) : list string :=
  (λ p, provider_name (providerAt H p)) <$> providers r.


(** Ascending declared position, a missing position counting as 0. *)
Definition by_position (H : Heap) (p q : ref) : Prop :=
  (position_or_0 (providerAt H p) ≤ position_or_0 (providerAt H q))%Z.

(** The value a sequence of property assignments assigns last to [k]. *)
Fixpoint last_assigned (kvs : JS.obj) (k : string) : option JS.value :=
  match kvs with
  | [] => None
  | (k0, v0) :: rest =>
      match last_assigned rest k with
      | Some y => Some y
      | None => if bool_decide (k0 = k) then Some v0 else None
      end
  end.

(** The assignments [merged_values] makes, in order: the properties of
    every object-valued entry of the per-provider map. *)
Definition assignments (combined : JS.obj) : JS.obj :=
  combined ≫= λ kv,
    if JS.truthy kv.2 && JS.typeof_object kv.2 then JS.own_props kv.2 else [].

(** The audit entry of a [useModel] call that returned [response]. *)
Definition useModel_entry (r : Runtime) (modelType : string)
    (params response : JS.value) : LogEntry :=
  LogUseModel (agentId r) (agentId r) modelType modelType
    (if JS.truthy params then (JS.own_props params).*1 else [])
    (if number_array response then JS.VStr "[array]" else response).

(** ** Sample objects

    The providers of the end-to-end scenario of the specification, and a
    runtime to register them in. *)

Module Sample.

Definition result (t : string) (vs : JS.obj) : ProviderResult :=
  {| result_values := JS.VObj vs; result_data := JS.VUndefined;
     result_text := Some t |}.

Definition P1 : Provider :=
  {| provider_name := "P1"; position := Some 0%Z; private := false;
     dynamic := false;
     provider_get := λ _ _ _, result "ctx1" [("mood", JS.VStr "calm")] |}.

Definition P2 : Provider :=
  {| provider_name := "P2"; position := Some 5%Z; private := false;
     dynamic := false;
     provider_get := λ _ _ _, result "ctx2" [("mood", JS.VStr "keen")] |}.

Definition echo : Action :=
  {| action_name := "ECHO"; similes := Some ["REPEAT"];
     handler := Some (λ _ _ _ _ _, ret tt) |}.

Definition failing : Action :=
  {| action_name := "FAIL"; similes := None;
     handler := Some (λ _ _ _ _ _, throw (Thrown "boom")) |}.

Definition inert : Action :=
  {| action_name := "INERT"; similes := None; handler := None |}.

Definition mailer (instance : ref) : Service :=
  {| serviceType := Some "mail"; start := λ _, Return instance |}.

Definition untyped : Service :=
  {| serviceType := None; start := λ _, Return 0 |}.

Definition bare_plugin : Plugin :=
  {| plugin_name := "bare"; plugin_adapter := None; plugin_actions := None;
     plugin_evaluators := None; plugin_providers := None;
     plugin_models := None; plugin_routes := None; plugin_events := None;
     plugin_services := None; plugin_init := None;
     plugin_config := JS.VUndefined |}.

(** A plugin that brings two services of one type. *)
Definition mail_plugin : Plugin :=
  {| plugin_name := "mail"; plugin_adapter := None; plugin_actions := None;
     plugin_evaluators := None; plugin_providers := None;
     plugin_models := None; plugin_routes := None; plugin_events := None;
     plugin_services := Some [7; 8]; plugin_init := None;
     plugin_config := JS.VUndefined |}.

(** Provider 0 is P2 and provider 1 is P1, so that registration order and
    position order differ; services 7 and 8 are two mailers. *)
Definition heap : Heap :=
  {| providerAt := λ p, match p with 0 => P2 | _ => P1 end;
     actionAt := λ a, match a with 0 => echo | 1 => failing | _ => inert end;
     serviceAt := λ s, match s with 0 => untyped | _ => mailer (s + 100) end;
     modelAt := λ h _ params,
       match h with
       | 0 => Return (JS.VStr "first")
       | _ => Return params
       end;
     pluginAt := λ p, match p with 1 => mail_plugin | _ => bare_plugin end |}.

Definition eliza : Character :=
  {| character_name := "eliza";
     secrets := Some [("TOKEN", JS.VStr "")];
     settings := Some [("TOKEN", JS.VStr "abc")] |}.

Definition runtime : Runtime :=
  {| agentId := "agent"; character := eliza; adapter := Some 0;
     actions := [0; 1; 2]; evaluators := []; providers := [0; 1];
     plugins := []; events := ∅; stateCache := ∅; services := ∅;
     models := {[ "TEXT" := [0; 1] ]}; routes := [] |}.

Definition world : World := {| rt := runtime; auditLog := []; trace := [] |}.

Definition message : Memory :=
  {| id := "m1"; entityId := "user"; roomId := "room";
     content_text := "hello"; content_actions := None |}.

Definition reply (l : list string) : Memory :=
  {| id := "m2"; entityId := "agent"; roomId := "room";
     content_text := "ok"; content_actions := Some l |}.

End Sample.

(** * Registries and runners beside the composer and the dispatcher

    The task worker registry, the service and event look-ups, the
    evaluator runner and the embedding dimension set-up. The runtime of
    the first part is kept as it is; the [taskWorkers] field, and what
    these methods write and call, are added around it. *)

(** Modelled from the spec: an evaluator has a name, the always-run flag
    (unset is false), a validation predicate and a handler with the
    argument shape of an action's handler; [evaluate] tests [handler] for
    presence and passes on its own optional [responses]. *)
Record Evaluator := {
  evaluator_name : string;
  alwaysRun : bool;
  validate : Runtime → Memory → State → Outcome bool;
  evaluator_handler :
    option (Runtime → Memory → State → option ref → option (list Memory)
            → M unit);
}.

(** Modelled from the spec: a named background-task definition; the
    runtime reads its name only. *)
Record TaskWorker := {
  task_name : string;
}.

(** [(params: any) => void] *)
Definition Listener : Type := JS.value → Outcome unit.

Record Registry := {
  evaluatorAt : ref → Evaluator;
  taskWorkerAt : ref → TaskWorker;
  listenerAt : ref → Listener;
}.

(** Warn and error lines, calls of callbacks and of the adapter, and log
    entries of type evaluator, of the methods of this part. *)
Inductive Notice :=
| ErrorServiceNotFound (service : string)
| WarnTaskAlreadyRegistered (name : string)
| ListenerCall (listener : ref) (params : JS.value)
| ValidateCall (evaluator : ref) (message : Memory) (state : State)
| EvaluatorCall (evaluator : ref) (message : Memory) (state : State)
    (callback : option ref) (responses : option (list Memory))
| LogEvaluator (entity room : UUID) (evaluator : string) (messageId : UUID)
    (message : string) (state : State)
| AdapterEnsureEmbeddingDimension (dimension : JS.value).

Record System := {
  core : World;
  taskWorkers : gmap string ref;
  notices : list Notice;
}.

Definition N (A : Type) : Type := System → Outcome A * System.

Declare Scope sys_scope.
Delimit Scope sys_scope with sys.
Bind Scope sys_scope with N.

Definition retN {A} (a : A) : N A := λ s, (Return a, s).
Definition throwN {A} (e : Error) : N A := λ s, (Throw e, s).
Definition bindN {A B} (m : N A) (k : A → N B) : N B :=
  λ s, match m s with
       | (Return a, s') => k a s'
       | (Throw e, s') => (Throw e, s')
       end.
Definition catchN {A} (m : N A) (h : Error → N A) : N A :=
  λ s, match m s with
       | (Return a, s') => (Return a, s')
       | (Throw e, s') => h e s'
       end.
Definition settleN {A} (m : N A) : N (Outcome A) :=
  λ s, let '(o, s') := m s in (Return o, s').
Arguments bindN {A B} m%_sys k%_sys.
Arguments catchN {A} m%_sys h%_sys.
Arguments settleN {A} m%_sys.

(** A method of the first part, run on the runtime inside. *)
Definition lift {A} (m : M A) : N A :=
  λ s, let '(o, w') := m (core s) in
       (o, {| core := w'; taskWorkers := taskWorkers s;
              notices := notices s |}).
Arguments lift {A} m%_rt.

Definition workers : N (gmap string ref) := λ s, (Return (taskWorkers s), s).
Definition set_workers (m : gmap string ref) : N unit :=
  λ s, (Return tt, {| core := core s; taskWorkers := m;
                      notices := notices s |}).
Definition notice (n : Notice) : N unit :=
  λ s, (Return tt, {| core := core s; taskWorkers := taskWorkers s;
                      notices := notices s ++ [n] |}).

Notation "'let*' x := m 'in' k" := (bindN m (λ x, k))
  (at level 10, x pattern, m at level 100, k at level 200) : sys_scope.
Notation "m ;; k" := (bindN m (λ _, k))
  (at level 100, k at level 200, right associativity) : sys_scope.

Fixpoint for_eachN {A} (l : list A) (body : A → N unit) : N unit :=
  match l with
  | [] => retN tt
  | x :: l' => (body x ;; for_eachN l' body)%sys
  end.
Arguments for_eachN {A} l body%_sys.

(** The promises of [l]: every computation is run, in the order of the
    list, also after one threw. A callback acts on the system when it is
    called, and its outcome is what its promise settles to. *)
Fixpoint launch {A} (l : list (N A)) : N (list (Outcome A)) :=
  match l with
  | [] => retN []
  | m :: l' =>
      (let* o := settleN m in
       let* os := launch l' in
       retN (o :: os))%sys
  end.

Fixpoint returned {A} (l : list (Outcome A)) : list A :=
  match l with
  | [] => []
  | Return a :: l' => a :: returned l'
  | Throw _ :: l' => returned l'
  end.

(** When a promise settles is left to the callback, so the time is a
    parameter, given by the position of the call in its batch. The
    members of a batch with their positions, in the order in which they
    settle, the earlier call first among those of one time: *)
Definition by_time {A} (t : nat → nat) (l : list A) : list (nat * A) :=
  JS.sort (λ a b, (Z.of_nat (t a.1) - Z.of_nat (t b.1))%Z) (imap pair l).

(** [Promise.all] rejects with the rejection that comes first in time. *)
Definition first_in_time {A} (t : nat → nat) (os : list (Outcome A))
  : option Error :=
  first_rejection (by_time t os).*2.

(** [v.length] of a [v] that is neither null nor undefined. *)
Definition length_of (v : JS.value) : JS.value :=
  match v with
  | JS.VArr l => JS.VNum (Z.of_nat (length l))
  | JS.VStr s => JS.VNum (Z.of_nat (String.length s))
  | JS.VObj _ => JS.get v "length"
  | _ => JS.VUndefined
  end.

Section Runners.
Local Open Scope sys_scope.
Context (H : Heap) (G : Registry).
(** [ModelTypes.TEXT_EMBEDDING], whose table is not among the sources. *)
Context (TEXT_EMBEDDING : string).
(** The times at which the validation predicates and the handlers of
    [evaluate] settle, by position in their batch. *)
Context (validated handled : nat → nat).

(** *** Services and task workers *)

Definition getAllServices : N (gmap string ref) :=
  let* r := lift this in retN (services r).

Definition getService (service : string) : N (option ref) :=
  let* r := lift this in
  match services r !! service with
  | None => notice (ErrorServiceNotFound service) ;; retN None
  | Some serviceInstance => retN (Some serviceInstance)
  end.

Definition registerTaskWorker (taskHandler : ref) : N unit :=
  let name := task_name (taskWorkerAt G taskHandler) in
  let* tw := workers in
  (if bool_decide (is_Some (tw !! name))
   then notice (WarnTaskAlreadyRegistered name)
   else retN tt) ;;
  let* tw := workers in
  set_workers (<[name := taskHandler]> tw).

Definition getTaskWorker (name : string) : N (option ref) :=
  let* tw := workers in retN (tw !! name).

(** *** Events *)

Definition getEvent (event : string) : N (option (list ref)) :=
  let* r := lift this in retN (events r !! event).

(** [event] is one name or an array of names. *)
Definition emitEvent (event : string + list string) (params : JS.value)
  : N unit :=
  let events_ := match event with inl e => [e] | inr l => l end in
  for_eachN events_ (λ eventName,
    let* r := lift this in
    match events r !! eventName with
    | Some eventHandlers =>
        for_eachN eventHandlers (λ handler,
          notice (ListenerCall handler params) ;;
          match listenerAt G handler params with
          | Throw e => throwN e
          | Return _ => retN tt
          end)
    | None => retN tt
    end).

(** *** Evaluator runner

    [evaluate] awaits two [Promise.all]. The validation predicates are
    all called, in registration order, before any result is looked at;
    the first rejection in time is the error of [evaluate]. The handlers
    of the selected evaluators are all called, in that order, before the
    first log entry is written; the log entry of an evaluator follows
    when its handler has settled, so the entries come in the order in
    which the handlers settle, and again the first rejection in time is
    the error. [didRespond] is optional, and absent counts as false. *)

(** One of the [evaluatorPromises]. *)
Definition chosen (message : Memory) (state : State)
    (didRespond : option bool) (evaluator : ref) : N (option ref) :=
  match evaluator_handler (evaluatorAt G evaluator) with
  | None => retN None
  | Some _ =>
      if negb (default false didRespond)
         && negb (alwaysRun (evaluatorAt G evaluator))
      then retN None
      else
        let* r := lift this in
        notice (ValidateCall evaluator message state) ;;
        match validate (evaluatorAt G evaluator) r message state with
        | Throw e => throwN e
        | Return true => retN (Some evaluator)
        | Return false => retN None
        end
  end.

(** A selected evaluator up to the end of its handler; the result tells
    whether a log entry follows. *)
Definition handle (message : Memory) (state : State)
    (callback : option ref) (responses : option (list Memory))
    (evaluator : ref) : N bool :=
  match evaluator_handler (evaluatorAt G evaluator) with
  | None => retN false
  | Some handler =>
      let* r := lift this in
      notice (EvaluatorCall evaluator message state callback responses) ;;
      lift (handler r message state callback responses) ;;
      retN true
  end.

(** [await this.getDatabaseAdapter().log({type: "evaluator", ...})] *)
Definition log_evaluator (message : Memory) (state : State)
    (evaluator : ref) : N unit :=
  let* a := lift getDatabaseAdapter in
  match a with
  | Some _ =>
      notice (LogEvaluator (entityId message) (roomId message)
                (evaluator_name (evaluatorAt G evaluator)) (id message)
                (content_text message) state)
  | None => throwN TypeError
  end.

(** What is left of a selected evaluator after its handler settled. *)
Definition conclude (message : Memory) (state : State)
    (run : ref * Outcome bool) : N unit :=
  match run.2 with
  | Throw e => throwN e
  | Return true => log_evaluator message state run.1
  | Return false => retN tt
  end.

Definition evaluate (message : Memory) (state : State)
    (didRespond : option bool) (callback : option ref)
    (responses : option (list Memory)) : N (list ref) :=
  let* r := lift this in
  let* verdicts :=
    launch (chosen message state didRespond <$> evaluators r) in
  match first_in_time validated verdicts with
  | Some error => throwN error
  | None =>
      let evaluators_ := omap Datatypes.id (returned verdicts) in
      if bool_decide (length evaluators_ = 0) then retN []
      else
        let* state :=
          lift (composeState H message
                  (Some ["RECENT_MESSAGES"; "EVALUATORS"]) None) in
        let* runs :=
          launch (handle message state callback responses <$> evaluators_) in
        let* ends :=
          launch (conclude message state
                    <$> (by_time handled (zip evaluators_ runs)).*2) in
        match first_rejection ends with
        | Some error => throwN error
        | None => retN evaluators_
        end
  end.

(** *** Embedding dimension *)

Definition complaint (r : Runtime) (what : string) : Error :=
  Thrown ("[AgentRuntime][" +:+ character_name (character r) +:+ "] "
          +:+ what).

Definition ensureEmbeddingDimension : N unit :=
  let* r := lift this in
  let* a := lift getDatabaseAdapter in
  match a with
  | None =>
      throwN (complaint r
        "Database adapter not initialized before ensureEmbeddingDimension")
  | Some _ =>
      catchN
        (match getModel r TEXT_EMBEDDING with
         | None => throwN (complaint r "No TEXT_EMBEDDING model registered")
         | Some _ =>
             let* embedding := lift (useModel H TEXT_EMBEDDING JS.VNull) in
             if negb (JS.truthy embedding)
                || negb (JS.truthy (length_of embedding))
             then throwN (complaint r "Invalid embedding received")
             else
               let* a := lift getDatabaseAdapter in
               match a with
               | Some _ =>
                   notice (AdapterEnsureEmbeddingDimension
                             (length_of embedding))
               | None => throwN TypeError
               end
         end)
        (λ error, throwN error)
  end.

End Runners.

(** The system around a world whose task worker registry is empty. *)
Definition boot (w : World) : System :=
  {| core := w; taskWorkers := ∅; notices := [] |}.

(** The task worker a sequence of registrations leaves under a name. *)
Definition last_named (G : Registry) (name : string) (l : list ref)
  : option ref :=
  last (filter (λ t, task_name (taskWorkerAt G t) = name) l).

(** The listeners an emit reaches, in the order of the calls. *)
Definition listeners (r : Runtime) (event : string + list string)
  : list ref :=
  mjoin ((λ e, default [] (events r !! e))
           <$> match event with inl e => [e] | inr l => l end).

(** The calls made up to and including the first listener that throws. *)
Fixpoint called (G : Registry) (params : JS.value) (l : list ref)
  : list ref :=
  match l with
  | [] => []
  | h :: l' =>
      match listenerAt G h params with
      | Throw _ => [h]
      | Return _ => h :: called G params l'
      end
  end.

Fixpoint first_throw (G : Registry) (params : JS.value) (l : list ref)
  : option Error :=
  match l with
  | [] => None
  | h :: l' =>
      match listenerAt G h params with
      | Throw e => Some e
      | Return _ => first_throw G params l'
      end
  end.

(** The test of the first phase of [evaluate] on one evaluator. *)
Definition candidate (G : Registry) (didRespond : option bool) (e : ref)
  : bool :=
  bool_decide (is_Some (evaluator_handler (evaluatorAt G e)))
  && (default false didRespond || alwaysRun (evaluatorAt G e)).

Definition selected (G : Registry) (r : Runtime) (message : Memory)
    (state : State) (didRespond : option bool) (e : ref) : bool :=
  candidate G didRespond e
  && match validate (evaluatorAt G e) r message state with
     | Return true => true
     | _ => false
     end.

(** A system with further notices, and one around another world. *)
Definition noted (ns : list Notice) (s : System) : System :=
  {| core := core s; taskWorkers := taskWorkers s;
     notices := notices s ++ ns |}.

Definition around (w : World) (s : System) : System :=
  {| core := w; taskWorkers := taskWorkers s; notices := notices s |}.

(** The state that [evaluate] composes for the handlers. *)
Definition evaluation_state (H : Heap) (message : Memory) (w : World)
  : State :=
  match (composeState H message (Some ["RECENT_MESSAGES"; "EVALUATORS"])
           None w).1 with
  | Return st => st
  | Throw _ => emptyState
  end.

(** The world after a listener was added to the list of an event. *)
Definition listening (event : string) (h : ref) (w : World) : World :=
  {| rt := with_events
             (<[event := default [] (events (rt w) !! event) ++ [h]]>
                (events (rt w))) (rt w);
     auditLog := auditLog w; trace := trace w |}.

(** How the promise of one evaluator settles in the first phase. *)
Definition verdict (G : Registry) (r : Runtime) (message : Memory)
    (state : State) (didRespond : option bool) (e : ref)
  : Outcome (option ref) :=
  if candidate G didRespond e then
    match validate (evaluatorAt G e) r message state with
    | Throw err => Throw err
    | Return true => Return (Some e)
    | Return false => Return None
    end
  else Return None.

(** The calls of the validation predicates that [evaluate] makes. *)
Definition validations (G : Registry) (message : Memory) (state : State)
    (didRespond : option bool) (l : list ref) : list Notice :=
  (λ e, ValidateCall e message state)
    <$> filter (λ e, candidate G didRespond e) l.

Definition log_entry (G : Registry) (message : Memory) (state : State)
    (e : ref) : Notice :=
  LogEvaluator (entityId message) (roomId message)
    (evaluator_name (evaluatorAt G e)) (id message) (content_text message)
    state.

(** A registry and a system to run the methods of this part on. *)
Module Cast.

Definition always : Evaluator :=
  {| evaluator_name := "ALWAYS"; alwaysRun := true;
     validate := λ _ _ _, Return true;
     evaluator_handler := Some (λ _ _ _ _ _, ret tt) |}.

Definition reflective : Evaluator :=
  {| evaluator_name := "REFLECT"; alwaysRun := false;
     validate := λ _ _ _, Return true;
     evaluator_handler := Some (λ _ _ _ _ _, ret tt) |}.

Definition doubtful : Evaluator :=
  {| evaluator_name := "DOUBT"; alwaysRun := true;
     validate := λ _ _ _, Throw (Thrown "unsure");
     evaluator_handler := Some (λ _ _ _ _ _, ret tt) |}.

Definition troubled : Evaluator :=
  {| evaluator_name := "TROUBLE"; alwaysRun := true;
     validate := λ _ _ _, Throw (Thrown "lost");
     evaluator_handler := Some (λ _ _ _ _ _, ret tt) |}.

(** Evaluator 0 always runs, evaluators 1 and 4 throw on validation, the
    others run after a reply only; task workers are named by parity;
    listener 0 throws. *)
Definition registry : Registry :=
  {| evaluatorAt := λ e, match e with
                         | 0 => always
                         | 1 => doubtful
                         | 4 => troubled
                         | _ => reflective
                         end;
     taskWorkerAt := λ t, {| task_name := if Nat.even t then "even"
                                          else "odd" |};
     listenerAt := λ h _, match h with
                          | 0 => Throw (Thrown "deaf")
                          | _ => Return tt
                          end |}.

Definition judged (l : list ref) : System :=
  boot {| rt := with_evaluators l Sample.runtime; auditLog := [];
          trace := [] |}.

Definition system : System := boot Sample.world.

(** The sample heap with model handlers that answer with a vector: three
    numbers from handler 0, none from the others. *)
Definition heap : Heap :=
  {| providerAt := providerAt Sample.heap;
     actionAt := actionAt Sample.heap;
     serviceAt := serviceAt Sample.heap;
     modelAt := λ h _ _,
       match h with
       | 0 => Return (JS.VArr [JS.VNum 1; JS.VNum 2; JS.VNum 3])
       | _ => Return (JS.VArr [])
       end;
     pluginAt := pluginAt Sample.heap |}.

End Cast.

(** * The constructor

    [new AgentRuntime(opts)] for options that carry a character, as the
    runtime of the first part has one; its name is then present, so that
    the random identifier of the last resort is never drawn. [opts.fetch]
    sets a field that is outside the model and [opts.events] is never
    read. The array [opts.plugins] is the caller's: it is held by
    reference, and the store of such arrays is threaded through. *)
Record Options := {
  opt_conversationLength : option Z;
  opt_agentId : option UUID;
  opt_character : Character;
  (** [opts.character.id] *)
  opt_character_id : option UUID;
  opt_plugins : option ref;
  opt_databaseAdapter : option ref;
  opt_adapter : option ref;
  opt_ignoreBootstrap : bool;
}.

Record Instance := {
  inside : World;
  conversationLength : Z;
}.

Abbreviation Arrays := (ref → list ref).

(** The fields as their initialisers leave them. *)
Definition initial (agentId : UUID) (c : Character) : Runtime :=
  {| agentId := agentId; character := c; adapter := None; actions := [];
     evaluators := []; providers := []; plugins := []; events := ∅;
     stateCache := ∅; services := ∅; models := ∅; routes := [] |}.

Section Constructor.
(** [stringToUuid] and the bootstrap plugin come from modules that are
    not among the sources. *)
Context (stringToUuid : string → UUID) (bootstrapPlugin : ref).

Definition AgentRuntime (opts : Options) (arrays : Arrays)
  : Instance * Arrays :=
  let agentId :=
    match opt_character_id opts with
    | Some i => i
    | None =>
        match opt_agentId opts with
        | Some i => i
        | None => stringToUuid (character_name (opt_character opts))
        end
    end in
  let conversationLength := default 32%Z (opt_conversationLength opts) in
  let plugins_ := default [] (arrays <$> opt_plugins opts) in
  let plugins_ :=
    if opt_ignoreBootstrap opts then plugins_
    else plugins_ ++ [bootstrapPlugin] in
  let arrays :=
    match opt_plugins opts with
    | Some p => λ q, if decide (q = p) then plugins_ else arrays q
    | None => arrays
    end in
  let built :=
    (when_present (opt_databaseAdapter opts) registerDatabaseAdapter ;;
     modify (with_adapter (opt_adapter opts)) ;;
     modify (with_plugins plugins_))
      {| rt := initial agentId (opt_character opts); auditLog := [];
         trace := [] |} in
  ({| inside := built.2; conversationLength := conversationLength |}, arrays).

Definition getConversationLength (i : Instance) : Z := conversationLength i.

End Constructor.

(** * The state composer with providers that act on the runtime

    [composeState] hands [this] to [provider.get], so a provider can
    change the runtime it is called with, and the promise it returns can
    reject. [composeState] above is the composer for providers that do
    neither. Here the operation of a provider is a computation on the
    world: it acts on the world when it is called, and its result is
    what its promise settles to. When the promises settle is the
    parameter [settled], as for the batches of [evaluate]. *)

(** The promises of [l]: every computation is run, also after one
    threw. *)
Fixpoint launch_all {A} (l : list (M A)) : M (list (Outcome A)) :=
  match l with
  | [] => ret []
  | m :: l' =>
      let* o := settle m in
      let* os := launch_all l' in
      ret (o :: os)
  end.

Module Effectful.
Section Composer.
Context (H : Heap).
Context (get : ref → Runtime → Memory → State → M ProviderResult).
Context (settled : nat → nat).

(** One of the promises given to [Promise.all]. *)
Definition fetching (message : Memory) (cachedState : State) (p : ref)
  : M (ProviderResult * string) :=
  emit (ProviderGet p message cachedState) ;;
  let* r := this in
  let* result := get p r message cachedState in
  ret (result, provider_name (providerAt H p)).

Definition composeState (message : Memory)
    (filterList includeList : option (list string)) : M State :=
  let* r := this in
  let cachedState := cached_state r message in
  let selected := providersToGet H r cachedState filterList includeList in
  let* settlements := launch_all (fetching message cachedState <$> selected) in
  match first_in_time settled settlements with
  | Some error => throw error
  | None =>
      let composed := newState cachedState (returned settlements) in
      modify (λ r, with_stateCache (<[id message := composed]> (stateCache r))
                     r) ;;
      ret composed
  end.

End Composer.
End Effectful.

(** The providers of a heap, as operations that leave the world alone. *)
Definition pure_get (H : Heap)
  : ref → Runtime → Memory → State → M ProviderResult :=
  λ p r message cachedState,
    ret (provider_get (providerAt H p) r message cachedState).

(** A provider operation that composes the state of another message
    first. *)
Definition nosy_get (H : Heap) (other : Memory)
  : ref → Runtime → Memory → State → M ProviderResult :=
  λ p r message cachedState,
    composeState H other None None ;;
    ret (provider_get (providerAt H p) r message cachedState).

(** The sample world with a snapshot cached for another message. *)
Definition remembering : World :=
  {| rt := with_stateCache
             {[ "m0" := {| values := [("mood", JS.VStr "calm")];
                           data := []; text := "old" |} ]}
             Sample.runtime;
     auditLog := []; trace := [] |}.

Definition other_message : Memory :=
  {| id := "m9"; entityId := "user"; roomId := "room";
     content_text := "bye"; content_actions := None |}.

(** * Further specification-side definitions *)

(** What the sources below the agent secrets give for a key. *)
Definition lower_setting (environment : JS.obj) (r : Runtime) (key : string)
  : JS.value :=
  coerce_setting
    (JS.or
       (JS.or (opt_get (settings (character r)) key)
          (opt_get_nested (settings (character r)) key))
       (JS.get (JS.VObj environment) key)).

(** What the sources below the agent settings give for a key. *)
Definition lowest_setting (environment : JS.obj) (r : Runtime) (key : string)
  : JS.value :=
  coerce_setting
    (JS.or (opt_get_nested (settings (character r)) key)
       (JS.get (JS.VObj environment) key)).

(** The number of underscores of a name. *)
Fixpoint count_underscores (s : string) : nat :=
  match s with
  | EmptyString => 0
  | String c s' =>
      (if bool_decide (c = "_"%char) then 1 else 0) + count_underscores s'
  end.

(** The ordered collections of a runtime: plugins, actions, evaluators,
    providers and routes. *)
Definition collections (r : Runtime)
  : list ref * list ref * list ref * list ref * list ref :=
  (plugins r, actions r, evaluators r, providers r, routes r).

(** Whether a plugin of the same name is tracked already. *)
Definition tracked (H : Heap) (p : ref) (r : Runtime) : bool :=
  existsb (λ q, bool_decide (plugin_name (pluginAt H q)
                             = plugin_name (pluginAt H p))) (plugins r).

Abbreviation Collections :=
  (list ref * list ref * list ref * list ref * list ref)%type.

(** A step that returns and acts on the collections as [f]; a
    computation that, returning or not, leaves them as [f] gives. *)
Definition acts_as (m : M unit) (f : Collections → Collections) : Prop :=
  ∀ w, ∃ w', m w = (Return tt, w')
             ∧ collections (rt w') = f (collections (rt w)).

Definition ends_with {A} (m : M A) (f : Collections → Collections) : Prop :=
  ∀ w, collections (rt (m w).2) = f (collections (rt w)).

(** What one install adds to the collections. *)
Definition track (H : Heap) (p : ref) (c : Collections) : Collections :=
  let '(pl, ac, ev, pr, ro) := c in
  (if existsb (λ q, bool_decide (plugin_name (pluginAt H q)
                                 = plugin_name (pluginAt H p))) pl
   then pl else pl ++ [p], ac, ev, pr, ro).

Definition contribute (H : Heap) (p : ref) (c : Collections) : Collections :=
  let '(pl, ac, ev, pr, ro) := c in
  (pl,
   ac ++ default [] (plugin_actions (pluginAt H p)),
   ev ++ default [] (plugin_evaluators (pluginAt H p)),
   pr ++ default [] (plugin_providers (pluginAt H p)),
   ro ++ default [] (plugin_routes (pluginAt H p))).

(** The part of a [processActions] call that precedes a requested action:
    the responses before the current one, then the requested actions of
    the current response before the current one. *)
Definition run_up_to (H : Heap) (message : Memory) (responses : list Memory)
    (callback : option ref) (before : list Memory) (response : Memory)
    (pre : list string) (state : option State) : M (option State) :=
  response_loop H message responses callback before state ;;
  action_loop H message responses callback response pre state.

(** The actions whose handlers a trace shows to have been called. *)
Definition handler_calls (tr : list Event) : list ref :=
  omap (λ e, match e with HandlerCall a _ _ _ _ => Some a | _ => None end) tr.







(** Providers that return no text, and a private one named like a
    default one. *)
Module Quiet.

Definition silent : Provider :=
  {| provider_name := "S"; position := None; private := false;
     dynamic := false;
     provider_get := λ _ _ _,
       {| result_values := JS.VUndefined; result_data := JS.VUndefined;
          result_text := None |} |}.

Definition spoken : Provider :=
  {| provider_name := "D"; position := Some 1%Z; private := false;
     dynamic := false;
     provider_get := λ _ _ _, Sample.result "d" [] |}.

Definition hidden : Provider :=
  {| provider_name := "D"; position := Some 2%Z; private := true;
     dynamic := false;
     provider_get := λ _ _ _, Sample.result "p" [] |}.

Definition heap : Heap :=
  {| providerAt := λ p, match p with
                        | 0 => silent
                        | 1 => spoken
                        | _ => hidden
                        end;
     actionAt := actionAt Sample.heap;
     serviceAt := serviceAt Sample.heap;
     modelAt := modelAt Sample.heap;
     pluginAt := pluginAt Sample.heap |}.

Definition world : World :=
  {| rt := with_providers [0; 1; 2] Sample.runtime; auditLog := [];
     trace := [] |}.

End Quiet.

(** * Properties *)

(** ** The monad *)

Lemma logged_nil w : logged [] w = w.
Proof. destruct w; unfold logged; simpl. by rewrite app_nil_r. Qed.

Lemma logged_app es1 es2 w : logged es2 (logged es1 w) = logged (es1 ++ es2) w.
Proof. unfold logged; simpl. by rewrite app_assoc. Qed.

Lemma for_each_emit {A} (f : A → Event) (l : list A) (w : World) :
  for_each l (λ x, emit (f x)) w = (Return tt, logged (f <$> l) w).
Proof.
  revert w. induction l as [|x l IH]; intros w; simpl.
  - by rewrite logged_nil.
  - unfold bind at 1. simpl. rewrite IH. f_equal.
    unfold logged; simpl. by rewrite <- app_assoc.
Qed.

(** ** Action names (C2) *)

(** C2. The specification has [normalizeAction] lower-case the name and
    delete every underscore, so that SEND_A_MESSAGE becomes sendamessage.
    The code calls [replace] with a string pattern, which deletes the first
    underscore only: the result is senda_message, and a request written
    SENDAMESSAGE then fails to match the action registered as
    SEND_A_MESSAGE. *)
Theorem normalizeAction_first_underscore_only :
  normalizeAction "SEND_A_MESSAGE" = "senda_message"
  ∧ spec_normalize "SEND_A_MESSAGE" = "sendamessage"
  ∧ fuzzy_match (normalizeAction "SENDAMESSAGE") "SEND_A_MESSAGE" = false.
Proof. repeat split; reflexivity. Qed.

(** ** Settings (C4) *)

Lemma falsy_coerce v : JS.truthy v = false → coerce_setting v = JS.VNull.
Proof.
  destruct v as [| |b|n|s| |]; simpl; try done.
  - by intros ->.
  - unfold coerce_setting. intros Hn. simpl. by rewrite Hn.
  - intros Hs. apply negb_false_iff, bool_decide_eq_true in Hs. by subst s.
Qed.

Lemma getSetting_coerce environment r key :
  getSetting environment r key =
  coerce_setting
    (JS.or
       (JS.or
          (JS.or (opt_get (secrets (character r)) key)
             (opt_get (settings (character r)) key))
          (opt_get_nested (settings (character r)) key))
       (JS.get (JS.VObj environment) key)).
Proof. reflexivity. Qed.

(** C4, as the code has it. [getSetting] returns the first truthy value
    among the four places in priority order, coerced; a place that holds a
    falsy value under the key is passed over like a place without the key,
    and the result is null when no place holds a truthy value. *)
Theorem getSetting_first_truthy environment r key :
  getSetting environment r key =
  match List.find JS.truthy (setting_candidates environment r key) with
  | Some v => coerce_setting v
  | None => JS.VNull
  end.
Proof.
  rewrite getSetting_coerce. unfold setting_candidates, JS.or. simpl.
  destruct (JS.truthy (opt_get (secrets (character r)) key)) eqn:E1;
    simpl; rewrite ?E1; [done|].
  destruct (JS.truthy (opt_get (settings (character r)) key)) eqn:E2;
    simpl; rewrite ?E2; [done|].
  destruct (JS.truthy (opt_get_nested (settings (character r)) key)) eqn:E3;
    simpl; rewrite ?E3; [done|].
  destruct (JS.truthy (JS.get (JS.VObj environment) key)) eqn:E4; [done|].
  by apply falsy_coerce.
Qed.

(** C4 with "the highest-priority source that contains the key" fails:
    the agent secrets hold the empty string under TOKEN and the agent
    settings hold abc. The secrets are the highest-priority source that
    contains the key, which gives null; the code passes the falsy value
    over and returns abc. *)
Lemma getSetting_passes_over_falsy_source :
  getSetting [] Sample.runtime "TOKEN" = JS.VStr "abc"
  ∧ spec_getSetting [] Sample.runtime "TOKEN" = JS.VNull
  ∧ getSetting [] Sample.runtime "TOKEN"
      ≠ spec_getSetting [] Sample.runtime "TOKEN".
Proof. repeat split; try reflexivity. vm_compute. discriminate. Qed.

(** ** Plugin installer (C10) *)

(** C10. [registerPlugin] on a null or undefined plugin returns at once:
    no error, and the world (the plugins list, actions, evaluators,
    providers, models, routes, event handlers, services and the bound
    adapter, as well as the audit log and the trace) is the one before. *)
Theorem registerPlugin_null_is_noop (H : Heap) (w : World) :
  registerPlugin H None w = (Return tt, w).
Proof. reflexivity. Qed.

(** ** State composer: what a call does to the world *)

Lemma composeState_run (H : Heap) message filterList includeList w :
  let cs := cached_state (rt w) message in
  let sel := providersToGet H (rt w) cs filterList includeList in
  let st := newState cs (fetch H (rt w) message cs <$> sel) in
  composeState H message filterList includeList w
  = (Return st, composed_world message cs st sel w).
Proof.
  intros cs sel st. unfold composeState, bind at 1, this. simpl.
  fold cs. fold sel. unfold bind at 1.
  rewrite for_each_emit. unfold bind, modify, ret. simpl. done.
Qed.


(** ** Model registry (C7) *)




(** ** Service registry (C6) *)

Lemma registerService_run (H : Heap) (s : ref) (w : World) :
  match service_type (serviceAt H s) with
  | None => registerService H s w = (Return tt, w)
  | Some ty =>
      match services (rt w) !! ty with
      | Some _ =>
          registerService H s w
          = (Return tt, logged [WarnServiceAlreadyRegistered ty] w)
      | None =>
          match start (serviceAt H s) (rt w) with
          | Return instance =>
              registerService H s w
              = (Return tt, registered_world s ty instance w)
          | Throw e =>
              registerService H s w = (Throw e, logged [ServiceStart s] w)
          end
      end
  end.
Proof.
  unfold registerService, startService, bind.
  destruct (service_type (serviceAt H s)) as [ty|]; [|done].
  unfold this; simpl.
  destruct (services (rt w) !! ty) as [i|] eqn:E; simpl; [done|].
  by destruct (start (serviceAt H s) (rt w)).
Qed.













(** ** Action dispatcher (C5, C8) *)

Lemma recompose_run (H : Heap) message w :
  composeState H message (Some ["RECENT_MESSAGES"]) None w
  = (Return (recomposed_state H message w), recomposed_world H message w).
Proof.
  unfold recomposed_state, recomposed_world.
  by rewrite composeState_run.
Qed.

Lemma recomposed_world_rt_actions (H : Heap) message w :
  actions (rt (recomposed_world H message w)) = actions (rt w).
Proof. unfold recomposed_world. by rewrite composeState_run. Qed.

(** One iteration of the action loop, by cases on the lookup and on the
    handler. *)
Lemma action_loop_step (H : Heap) message responses callback response
    (a : string) (rest : list string) (st0 : option State) (w : World) :
  let w1 := recomposed_world H message w in
  let st := recomposed_state H message w in
  let w1' := logged (lookup_errors H (rt w1) a) w1 in
  let continue := action_loop H message responses callback response rest
                    (Some st) in
  action_loop H message responses callback response (a :: rest) st0 w =
  match resolve H (rt w1) a with
  | None => continue (logged [ErrorNoActionIn response] w1')
  | Some act =>
      match handler (actionAt H act) with
      | None =>
          continue
            (logged [ErrorNoHandler (action_name (actionAt H act))] w1')
      | Some handle =>
          match handle (rt w1) message st callback responses
                  (logged [HandlerCall act message st callback responses]
                     w1') with
          | (Throw e, w2) => (Throw e, logged [ErrorThrown e] w2)
          | (Return _, w2) =>
              match adapter (rt w2) with
              | Some _ =>
                  continue
                    (audited
                       (LogAction (entityId message) (roomId message)
                          (action_name (actionAt H act))
                          (content_text message) (id message) st responses)
                       w2)
              | None => (Throw TypeError, logged [ErrorThrown TypeError] w2)
              end
          end
      end
  end.
Proof.
  intros w1 st w1' continue. simpl.
  unfold bind at 1. rewrite recompose_run. fold w1 st.
  unfold bind at 1, this. simpl.
  unfold resolve. subst w1'. unfold lookup_errors.
  destruct (find_by_name H (rt w1) (normalizeAction a)) as [x|] eqn:En;
    [rewrite logged_nil
    |destruct (find_by_simile H (rt w1) (normalizeAction a)) as [x|] eqn:Ex];
    subst continue;
    unfold adapter_log, getDatabaseAdapter, catch, emit, this, audit, logged,
      audited;
    unfold bind, ret, throw; simpl;
    try reflexivity;
    (destruct (handler (actionAt H x)) as [handle|]; [|reflexivity]);
    (destruct (handle _ _ _ _ _ _) as [[[]|e] w2]; simpl; [|reflexivity]);
    by destruct (adapter (rt w2)).
Qed.


Lemma response_loop_state_irrelevant (H : Heap) message responses callback
    (todo : list Memory) (st1 st2 : option State) (w : World) :
  response_loop H message responses callback todo st1 w
  = response_loop H message responses callback todo st2 w.
Proof.
  revert st1 st2 w. induction todo as [|response todo IH]; intros st1 st2 w.
  - reflexivity.
  - simpl. destruct (content_actions response) as [[|a rest]|].
    + unfold bind, emit; simpl. apply IH.
    + unfold bind at 1. rewrite action_loop_step. symmetry.
      unfold bind at 1. by rewrite action_loop_step.
    + unfold bind, emit; simpl. apply IH.
Qed.

Lemma action_loop_state_irrelevant (H : Heap) message responses callback
    response (a : string) (rest : list string) (st1 st2 : option State) w :
  action_loop H message responses callback response (a :: rest) st1 w
  = action_loop H message responses callback response (a :: rest) st2 w.
Proof. by rewrite !action_loop_step. Qed.

Lemma action_loop_app (H : Heap) message responses callback response
    (pre : list string) (a : string) (rest : list string)
    (st0 : option State) (w : World) :
  action_loop H message responses callback response (pre ++ a :: rest) st0 w
  = match action_loop H message responses callback response pre st0 w with
    | (Return s, w') =>
        action_loop H message responses callback response (a :: rest) s w'
    | (Throw e, w') => (Throw e, w')
    end.
Proof.
  revert st0 w. induction pre as [|b pre IH]; intros st0 w; [done|].
  change ((b :: pre) ++ a :: rest) with (b :: (pre ++ a :: rest)).
  rewrite !action_loop_step.
  destruct (resolve H _ b) as [act|]; [|apply IH].
  destruct (handler (actionAt H act)) as [handle|]; [|apply IH].
  destruct (handle _ _ _ _ _ _) as [[[]|e] w2]; [|done].
  destruct (adapter (rt w2)); [apply IH|done].
Qed.

Lemma response_loop_app (H : Heap) message responses callback
    (before todo : list Memory) (st st' : option State) (w : World) :
  response_loop H message responses callback (before ++ todo) st w
  = match response_loop H message responses callback before st w with
    | (Return _, w') =>
        response_loop H message responses callback todo st' w'
    | (Throw e, w') => (Throw e, w')
    end.
Proof.
  revert st w. induction before as [|response before IH]; intros st w.
  - apply response_loop_state_irrelevant.
  - cbn [app response_loop].
    destruct (content_actions response) as [[|a rest]|].
    + unfold bind, emit. cbn [fst snd]. apply IH.
    + unfold bind.
      destruct (action_loop H message responses callback response
                  (a :: rest) st w) as [[s|e] w']; [|done].
      rewrite (response_loop_state_irrelevant _ _ _ _ _ s st).
      rewrite (response_loop_state_irrelevant _ _ _ _ before s st).
      apply IH.
    + unfold bind, emit. cbn [fst snd]. apply IH.
Qed.

(** C5. A requested action at any place of the batch: the responses
    before its response and the requested actions before it are run
    first, and an error thrown there is the outcome of [processActions].
    Otherwise, when the name resolves to no action, or to an action
    without handler, an error line is written and the call goes on with
    the remaining actions of the response and the later responses; when
    the handler of the resolved action throws, the error is logged and is
    the outcome of [processActions], and nothing of the remaining actions
    and responses is run. (When the handler returns, the audit entry is
    written and the call goes on; without a bound adapter that write is
    itself a thrown error.) *)
Theorem processActions_fail_fast (H : Heap) message callback
    (before : list Memory) (response : Memory) (later : list Memory)
    (pre : list string) (a : string) (rest : list string)
    (st0 : option State) (w : World) :
  content_actions response = Some (pre ++ a :: rest) →
  let responses := before ++ response :: later in
  match run_up_to H message responses callback before response pre st0 w with
  | (Throw e, w0) =>
      processActions H message responses st0 callback w = (Throw e, w0)
  | (Return _, w0) =>
      let w1 := recomposed_world H message w0 in
      let st := recomposed_state H message w0 in
      let w1' := logged (lookup_errors H (rt w1) a) w1 in
      let continue :=
        continue_with H message responses callback response rest later st in
      processActions H message responses st0 callback w =
      match resolve H (rt w1) a with
      | None => continue (logged [ErrorNoActionIn response] w1')
      | Some act =>
          match handler (actionAt H act) with
          | None =>
              continue
                (logged [ErrorNoHandler (action_name (actionAt H act))] w1')
          | Some handle =>
              match handle (rt w1) message st callback responses
                      (logged [HandlerCall act message st callback responses]
                         w1') with
              | (Throw e, w2) => (Throw e, logged [ErrorThrown e] w2)
              | (Return _, w2) =>
                  match adapter (rt w2) with
                  | Some _ =>
                      continue
                        (audited
                           (LogAction (entityId message) (roomId message)
                              (action_name (actionAt H act))
                              (content_text message) (id message) st
                              responses)
                           w2)
                  | None =>
                      (Throw TypeError, logged [ErrorThrown TypeError] w2)
                  end
              end
          end
      end
  end.
Proof.
  intros Hactions responses.
  assert (processActions H message responses st0 callback w
          = match response_loop H message responses callback before st0 w
            with
            | (Return _, w') =>
                match action_loop H message responses callback response pre
                        st0 w' with
                | (Return s, w0) =>
                    (let* s := action_loop H message responses callback
                                 response (a :: rest) s in
                     response_loop H message responses callback later s) w0
                | (Throw e, w0) => (Throw e, w0)
                end
            | (Throw e, w') => (Throw e, w')
            end) as ->.
  { unfold processActions.
    change (response_loop H message responses callback responses st0 w)
      with (response_loop H message responses callback
              (before ++ response :: later) st0 w).
    rewrite (response_loop_app H message responses callback before
               (response :: later) st0 st0 w).
    destruct (response_loop H message responses callback before st0 w)
      as [[[]|e] w']; [|done].
    cbn [response_loop]. rewrite Hactions.
    assert (∃ b l, pre ++ a :: rest = b :: l) as (b & l & Hl)
      by (destruct pre; eauto).
    rewrite Hl, <- Hl. unfold bind at 1. rewrite action_loop_app.
    by destruct (action_loop H message responses callback response pre st0
                   w') as [[s|e] w0]. }
  unfold run_up_to, bind at 1.
  destruct (response_loop H message responses callback before st0 w)
    as [[[]|e] w']; [|done].
  destruct (action_loop H message responses callback response pre st0 w')
    as [[s|e] w0]; [|done].
  cbv zeta. unfold bind at 1. rewrite action_loop_step.
  unfold continue_with, bind.
  destruct (resolve H _ a) as [act|]; [|done].
  destruct (handler (actionAt H act)) as [handle|]; [|done].
  destruct (handle _ _ _ _ _ _) as [[[]|e] w2]; [|done].
  by destruct (adapter (rt w2)).
Qed.

Lemma processActions_fail_fast_witness :
  let responses :=
    [Sample.reply ["ECHO"]]
      ++ Sample.reply ["ECHO"; "FAIL"; "ECHO"] :: [Sample.reply ["ECHO"]] in
  let run := processActions Sample.heap Sample.message responses None None
               Sample.world in
  run = (Throw (Thrown "boom"), run.2)
  ∧ handler_calls (trace run.2) = [0; 0; 1]
  ∧ last (trace run.2) = Some (ErrorThrown (Thrown "boom")).
Proof.
  intros responses run.
  split; [|split; vm_compute; reflexivity].
  vm_cast_no_check
    (processActions_fail_fast Sample.heap Sample.message None
       [Sample.reply ["ECHO"]] (Sample.reply ["ECHO"; "FAIL"; "ECHO"])
       [Sample.reply ["ECHO"]] ["ECHO"] "FAIL" ["ECHO"] None Sample.world
       eq_refl).
Defined.

(** C8. What [processActions] does is independent of its [state] argument:
    two calls that differ in that argument only produce the same outcome,
    the same runtime, the same audit entries and the same trace (thus the
    same handler calls with the same arguments), since [state] is assigned
    from [composeState] before it is read. *)
Theorem processActions_state_irrelevant (H : Heap) message responses callback
    (st1 st2 : option State) (w : World) :
  processActions H message responses st1 callback w
  = processActions H message responses st2 callback w.
Proof. apply response_loop_state_irrelevant. Qed.

(** ** Sorting *)

Section Sort.
Context {A : Type} (key : A → Z).

Local Abbreviation cmp := (λ a b : A, (key a - key b)%Z).
Local Abbreviation le := (λ a b : A, (key a ≤ key b)%Z).

Lemma insert_sorted_perm x l : JS.insert_sorted cmp x l ≡ₚ x :: l.
Proof.
  induction l as [|y l IH]; simpl; [done|].
  destruct (cmp x y <=? 0)%Z; [done|].
  rewrite IH. apply Permutation_swap.
Qed.

Lemma sort_perm l : JS.sort cmp l ≡ₚ l.
Proof.
  induction l as [|x l IH]; simpl; [done|].
  unfold JS.sort in IH. by rewrite insert_sorted_perm, IH.
Qed.

Lemma insert_sorted_sorted x l :
  StronglySorted le l → StronglySorted le (JS.insert_sorted cmp x l).
Proof.
  induction 1 as [|y l Hl IH Hy]; simpl; [repeat constructor|].
  destruct (cmp x y <=? 0)%Z eqn:E.
  - apply Z.leb_le in E. constructor; [by constructor|].
    constructor; [lia|].
    eapply Forall_impl; [exact Hy|]. simpl. intros; lia.
  - apply Z.leb_gt in E. constructor; [done|].
    rewrite insert_sorted_perm. constructor; [lia|done].
Qed.

Lemma sort_sorted l : StronglySorted le (JS.sort cmp l).
Proof.
  induction l as [|x l IH]; simpl; [constructor|].
  by apply insert_sorted_sorted.
Qed.

(** Stability: among equal keys the order of the input is kept. *)
Lemma insert_sorted_stable z x l :
  filter (λ a, key a = z) (JS.insert_sorted cmp x l)
  = filter (λ a, key a = z) (x :: l).
Proof.
  induction l as [|y l IH]; simpl; [done|].
  destruct (cmp x y <=? 0)%Z eqn:E; [done|].
  apply Z.leb_gt in E.
  rewrite (filter_cons _ y), IH, !(filter_cons _ x), !(filter_cons _ y).
  repeat case_decide; try done; lia.
Qed.

Lemma sort_stable z l :
  filter (λ a, key a = z) (JS.sort cmp l) = filter (λ a, key a = z) l.
Proof.
  induction l as [|x l IH]; [done|].
  change (JS.sort cmp (x :: l))
    with (JS.insert_sorted cmp x (JS.sort cmp l)).
  by rewrite insert_sorted_stable, !filter_cons, IH.
Qed.

End Sort.

(** ** State composer on an empty cache entry (C3) *)

Lemma filter_ext_elem {A} (P Q : A → Prop) `{!∀ x, Decision (P x)}
    `{!∀ x, Decision (Q x)} (l : list A) :
  (∀ x, x ∈ l → P x ↔ Q x) → filter P l = filter Q l.
Proof.
  induction l as [|x l IH]; intros Hl; [done|].
  rewrite !filter_cons, IH by (intros; apply Hl; by right).
  apply decide_ext, Hl. by left.
Qed.

Lemma filter_ne_absent (x : ref) (l : list ref) :
  x ∉ l → filter (λ y, y ≠ x) l = l.
Proof.
  induction l as [|y l IH]; intros Hx; [done|].
  rewrite filter_cons_True by set_solver. f_equal. apply IH. set_solver.
Qed.

Lemma distinct_NoDup (l : list ref) : NoDup l → distinct l = l.
Proof.
  induction 1 as [|x l Hx Hl IH]; simpl; [done|].
  by rewrite IH, filter_ne_absent.
Qed.

Lemma NoDup_fmap_elem_inj {A B} (f : A → B) (l : list A) x y :
  NoDup (f <$> l) → x ∈ l → y ∈ l → f x = f y → x = y.
Proof.
  induction l as [|a l IH]; simpl; intros Hnd Hx Hy Hf; [by inv Hx|].
  apply NoDup_cons in Hnd as [Ha Hnd].
  apply elem_of_cons in Hx as [->|Hx]; apply elem_of_cons in Hy as [->|Hy];
    try done.
  - exfalso. apply Ha. rewrite Hf. by apply list_elem_of_fmap_2.
  - exfalso. apply Ha. rewrite <- Hf. by apply list_elem_of_fmap_2.
  - by apply IH.
Qed.


Lemma elem_of_distinct (l : list ref) (x : ref) : x ∈ distinct l ↔ x ∈ l.
Proof.
  induction l as [|y l IH]; simpl; [done|].
  rewrite !elem_of_cons, list_elem_of_filter, IH.
  destruct (decide (x = y)); naive_solver.
Qed.

Lemma default_providers_fetched (H : Heap) (r : Runtime) :
  Forall (λ p, p ∈ fetched_by_default H r) (default_providers H r).
Proof.
  apply Forall_forall. intros p Hp.
  apply elem_of_distinct, list_elem_of_filter. split.
  - by apply (list_elem_of_fmap_2 (λ q, provider_name (providerAt H q))).
  - by apply list_elem_of_filter in Hp as [_ ?].
Qed.

(** With pairwise distinct names these are the default providers. *)
Lemma fetched_by_default_distinct_names (H : Heap) (r : Runtime) :
  NoDup (provider_names H r) →
  fetched_by_default H r = default_providers H r.
Proof.
  intros Hnd. unfold fetched_by_default.
  rewrite distinct_NoDup by (apply NoDup_filter; by apply NoDup_fmap_1 in Hnd).
  apply filter_ext_elem. intros x Hx.
  rewrite list_elem_of_fmap. unfold default_providers.
  setoid_rewrite list_elem_of_filter. split.
  - intros (q & Hq & Hflags & Hin).
    by rewrite (NoDup_fmap_elem_inj _ _ x q Hnd Hx Hin Hq).
  - intros Hflags. by exists x.
Qed.


Lemma join_present (l : list (option string)) :
  Forall is_Some l →
  JS.join nl (filter (λ t, t ≠ Some "") l)
  = String.concat nl (filter (λ t, t ≠ "") (default "" <$> l)).
Proof.
  intros Hl. unfold JS.join. f_equal.
  induction Hl as [|t l [s ->] Hl IH]; [done|].
  rewrite fmap_cons, !filter_cons. simpl.
  destruct (decide (s = "")) as [->|Hs].
  - rewrite decide_False by naive_solver. by rewrite decide_False by naive_solver.
  - rewrite decide_True by naive_solver. rewrite decide_True by done.
    by rewrite fmap_cons, IH.
Qed.

(** ** The order of the provider calls *)






Section SortLex.
Context {A : Type} (key : A → Z) (R0 : A → A → Prop).
Local Abbreviation cmp := (λ a b : A, (key a - key b)%Z).
Local Abbreviation lex :=
  (λ a b : A, (key a < key b)%Z ∨ (key a = key b ∧ R0 a b)).



End SortLex.

Lemma join_texts (l : list (option string)) :
  JS.join nl l = String.concat nl (default "" <$> l).
Proof. done. Qed.




(** ** Objects: property assignment *)

Section Objects.
Implicit Types (o kvs : JS.obj) (k : string) (v x : JS.value).

Lemma elem_of_insert_index n k v o (kv : string * JS.value) :
  kv ∈ JS.insert_index n k v o ↔ kv = (k, v) ∨ kv ∈ o.
Proof.
  induction o as [|[k' v'] o IH]; simpl; [set_solver|].
  destruct (JS.array_index k') as [n'|]; [|set_solver].
  destruct (n' <? n)%N; set_solver.
Qed.

Lemma elem_of_insert_new k v o (kv : string * JS.value) :
  kv ∈ JS.insert_new k v o ↔ kv = (k, v) ∨ kv ∈ o.
Proof.
  unfold JS.insert_new. destruct (JS.array_index k).
  - apply elem_of_insert_index.
  - set_solver.
Qed.

Lemma elem_of_overwrite k v o k' x :
  (k', x) ∈ JS.overwrite k v o
  ↔ (k' = k ∧ x = v ∧ k ∈ o.*1) ∨ (k' ≠ k ∧ (k', x) ∈ o).
Proof.
  unfold JS.overwrite. rewrite list_elem_of_fmap. split.
  - intros ([k0 x0] & Heq & Hin). simpl in Heq. case_bool_decide; simplify_eq.
    + left. repeat split. by apply (list_elem_of_fmap_2 fst) in Hin.
    + right. by split.
  - intros [(-> & -> & Hin)|(Hne & Hin)].
    + apply list_elem_of_fmap in Hin as ([k0 x0] & -> & Hin).
      exists (k0, x0). simpl. by rewrite bool_decide_eq_true_2.
    + exists (k', x). simpl. by rewrite bool_decide_eq_false_2.
Qed.

Lemma overwrite_keys k v o : (JS.overwrite k v o).*1 = o.*1.
Proof.
  unfold JS.overwrite. rewrite <- list_fmap_compose.
  apply list_fmap_ext. intros i [k' x] _. simpl.
  by case_bool_decide.
Qed.

Lemma set_present k v o : k ∈ o.*1 → JS.set k v o = JS.overwrite k v o.
Proof. intros Hk. unfold JS.set, JS.has. by rewrite bool_decide_eq_true_2. Qed.

Lemma elem_of_set_ne k v o k' x :
  k' ≠ k → (k', x) ∈ JS.set k v o ↔ (k', x) ∈ o.
Proof.
  intros Hne. unfold JS.set. destruct (JS.has k o).
  - rewrite elem_of_overwrite. naive_solver.
  - rewrite elem_of_insert_new. naive_solver.
Qed.

Lemma elem_of_set_eq k v o x : (k, x) ∈ JS.set k v o → x = v.
Proof.
  unfold JS.set, JS.has. case_bool_decide as Hk.
  - rewrite elem_of_overwrite. naive_solver.
  - rewrite elem_of_insert_new. intros [?|Hin]; [by simplify_eq|].
    destruct Hk. by apply (list_elem_of_fmap_2 fst) in Hin.
Qed.

Lemma set_key k v o : k ∈ (JS.set k v o).*1.
Proof.
  unfold JS.set, JS.has. case_bool_decide as Hk.
  - by rewrite overwrite_keys.
  - apply list_elem_of_fmap. exists (k, v). split; [done|].
    apply elem_of_insert_new. by left.
Qed.

Lemma set_keys_mono k v o k' : k' ∈ o.*1 → k' ∈ (JS.set k v o).*1.
Proof.
  intros Hk'. unfold JS.set. destruct (JS.has k o).
  - by rewrite overwrite_keys.
  - apply list_elem_of_fmap in Hk' as ([k0 x0] & -> & Hin).
    apply list_elem_of_fmap. exists (k0, x0). split; [done|].
    apply elem_of_insert_new. by right.
Qed.

Lemma fmap_id_elem {A} (f : A → A) (l : list A) :
  (∀ a, a ∈ l → f a = a) → f <$> l = l.
Proof.
  induction l as [|a l IH]; intros Hf; [done|].
  rewrite fmap_cons, Hf, IH; [done| |by left]. intros; apply Hf. by right.
Qed.

(** Assigning a value a property already has changes nothing. *)
Lemma set_set_same k v o : JS.set k v (JS.set k v o) = JS.set k v o.
Proof.
  rewrite (set_present k v (JS.set k v o)) by apply set_key.
  apply fmap_id_elem. intros [k' x] Hin. simpl.
  case_bool_decide as Hk; [|done]. subst k'.
  by rewrite (elem_of_set_eq _ _ _ _ Hin).
Qed.

Lemma assign_cons o k v kvs :
  JS.assign o ((k, v) :: kvs) = JS.assign (JS.set k v o) kvs.
Proof. reflexivity. Qed.

Lemma assign_app o kvs1 kvs2 :
  JS.assign o (kvs1 ++ kvs2) = JS.assign (JS.assign o kvs1) kvs2.
Proof. unfold JS.assign. apply foldl_app. Qed.


Lemma assign_keys_mono o kvs k : k ∈ o.*1 → k ∈ (JS.assign o kvs).*1.
Proof.
  revert o. induction kvs as [|[k0 v0] kvs IH]; intros o Hk; [done|].
  rewrite assign_cons. by apply IH, set_keys_mono.
Qed.

Lemma assign_keys_assigned o kvs k : k ∈ kvs.*1 → k ∈ (JS.assign o kvs).*1.
Proof.
  revert o. induction kvs as [|[k0 v0] kvs IH]; intros o Hk; [by inv Hk|].
  rewrite assign_cons. rewrite fmap_cons in Hk. simpl in Hk.
  apply elem_of_cons in Hk as [->|Hk]; [|by apply IH].
  apply assign_keys_mono, set_key.
Qed.

(** A property that is not assigned keeps its entries. *)
Lemma assign_unassigned o kvs k x :
  last_assigned kvs k = None → (k, x) ∈ JS.assign o kvs ↔ (k, x) ∈ o.
Proof.
  revert o. induction kvs as [|[k0 v0] kvs IH]; intros o Hk; [done|].
  simpl in Hk. destruct (last_assigned kvs k) eqn:E; [done|].
  case_bool_decide as Hk0; [done|].
  rewrite assign_cons, IH by done. by apply elem_of_set_ne.
Qed.

(** An assigned property holds the value assigned last. *)
Lemma assign_final o kvs k x y :
  (k, x) ∈ JS.assign o kvs → last_assigned kvs k = Some y → x = y.
Proof.
  revert o. induction kvs as [|[k0 v0] kvs IH]; intros o Hin Hk; [done|].
  rewrite assign_cons in Hin. simpl in Hk.
  destruct (last_assigned kvs k) eqn:E.
  - simplify_eq. by eapply IH.
  - case_bool_decide; simplify_eq.
    apply assign_unassigned in Hin; [|done].
    by apply elem_of_set_eq in Hin.
Qed.

(** Assignments to properties that all exist overwrite in place. *)
Lemma assign_present o kvs :
  (∀ k, k ∈ kvs.*1 → k ∈ o.*1) →
  JS.assign o kvs
  = (λ kx, (kx.1, default kx.2 (last_assigned kvs kx.1))) <$> o.
Proof.
  revert o. induction kvs as [|[k0 v0] kvs IH]; intros o Hkeys.
  - simpl. symmetry. apply fmap_id_elem. by intros [k x].
  - rewrite assign_cons, set_present by (apply Hkeys; set_solver).
    rewrite IH.
    + unfold JS.overwrite. rewrite <- list_fmap_compose.
      apply list_fmap_ext. intros i [k x] _. simpl.
      case_bool_decide as Hk; simpl.
      * subst k. rewrite bool_decide_eq_true_2 by done.
        by destruct (last_assigned kvs k0).
      * rewrite bool_decide_eq_false_2 by done.
        by destruct (last_assigned kvs k).
    + intros k Hk. rewrite overwrite_keys. apply Hkeys. set_solver.
Qed.

(** Merging the same assignments again into the result of a merge, and
    setting [p] to the same value again, gives the same object. *)
Lemma assign_idempotent_under o kvs p t :
  JS.set p t (JS.assign (JS.set p t (JS.assign o kvs)) kvs)
  = JS.set p t (JS.assign o kvs).
Proof.
  set (o1 := JS.assign o kvs). set (V := JS.set p t o1).
  rewrite (assign_present V kvs).
  2:{ intros k Hk. apply set_keys_mono. by apply assign_keys_assigned. }
  rewrite set_present.
  2:{ rewrite <- list_fmap_compose.
      replace ((fst ∘ _) <$> V) with (V.*1) by (by apply list_fmap_ext).
      apply set_key. }
  unfold JS.overwrite. rewrite <- list_fmap_compose.
  apply fmap_id_elem. intros [k x] Hin. simpl.
  case_bool_decide as Hk.
  - subst k. by rewrite (elem_of_set_eq _ _ _ _ Hin).
  - apply elem_of_set_ne in Hin; [|done].
    destruct (last_assigned kvs k) as [y|] eqn:E; [|done].
    simpl. by rewrite (assign_final _ _ _ _ _ Hin E).
Qed.

Lemma lookup_unique k v o :
  k ∈ o.*1 → (∀ x, (k, x) ∈ o → x = v) → JS.lookup k o = Some v.
Proof.
  unfold JS.lookup. induction o as [|[k' x] o IH]; intros Hk Hv; [by inv Hk|].
  simpl. case_bool_decide as E; simpl in *.
  - subst k'. f_equal. apply Hv. by left.
  - apply IH.
    + apply elem_of_cons in Hk as [?|?]; done.
    + intros y Hy. apply Hv. by right.
Qed.

Lemma lookup_set_eq k v o : JS.lookup k (JS.set k v o) = Some v.
Proof. apply lookup_unique; [apply set_key|apply elem_of_set_eq]. Qed.

Lemma merged_values_assign cs combined :
  merged_values cs combined = JS.assign (values cs) (assignments combined).
Proof.
  unfold merged_values, assignments. generalize (values cs).
  induction combined as [|kv combined IH]; intros acc; [done|].
  simpl. rewrite assign_app, IH.
  by destruct (JS.truthy kv.2 && JS.typeof_object kv.2).
Qed.

End Objects.

(** ** Idempotence of the state composer (C1) *)

Lemma newState_cached_providers cs pd :
  cached_providers (newState cs pd) = JS.VObj (combinedValues cs pd).
Proof.
  unfold cached_providers, JS.get, newState. simpl.
  by rewrite lookup_set_eq.
Qed.

(** A snapshot written by [composeState] is reproduced when nothing new
    is fetched. *)
Lemma newState_fixed cs pd : newState (newState cs pd) [] = newState cs pd.
Proof.
  assert (combinedValues (newState cs pd) [] = combinedValues cs pd) as Hcv.
  { unfold combinedValues at 1. simpl. by rewrite newState_cached_providers. }
  assert (providersText (newState cs pd) [] = providersText cs pd) as Htx.
  { unfold providersText at 1. simpl. unfold nonempty.
    by case_bool_decide as E; simpl; [rewrite E|]. }
  unfold newState at 1. rewrite Hcv, Htx. unfold newState. f_equal.
  - simpl. rewrite !merged_values_assign. simpl.
    apply assign_idempotent_under.
  - simpl. apply set_set_same.
Qed.

Lemma filter_none {A} (P : A → Prop) `{!∀ x, Decision (P x)} (l : list A) :
  (∀ x, x ∈ l → ¬ P x) → filter P l = [].
Proof.
  induction l as [|x l IH]; intros Hl; [done|].
  rewrite filter_cons_False by (apply Hl; by left).
  apply IH. intros; apply Hl. by right.
Qed.

(** When the cached names cover the default providers, nothing is
    selected. *)
Lemma nothing_to_get (H : Heap) (r : Runtime) (cs : State) :
  Forall (λ p, provider_name (providerAt H p) ∈ existingProviderNames cs)
    (default_providers H r) →
  providersToGet H r cs None None = [].
Proof.
  intros Hall. rewrite Forall_forall in Hall.
  unfold providersToGet, providerNames. simpl.
  rewrite (filter_none (λ p, _ ∧ _ ∧ _)).
  2:{ intros p Hp (Hpr & Hdy & Hname). apply Hname, Hall.
      unfold default_providers. by apply list_elem_of_filter. }
  rewrite filter_none; [done|]. set_solver.
Qed.

Lemma composed_world_again message st w0 cs sel :
  composed_world message st st [] (composed_world message cs st sel w0)
  = composed_world message cs st sel w0.
Proof.
  unfold composed_world. simpl. rewrite app_nil_r. f_equal.
  unfold with_stateCache. simpl. by rewrite insert_insert_eq.
Qed.

(** The second call after any call that left the default providers
    cached. *)
Lemma composeState_again (H : Heap) message filterList includeList w :
  let w1 := (composeState H message filterList includeList w).2 in
  Forall (λ p, provider_name (providerAt H p)
                 ∈ existingProviderNames (cached_state (rt w1) message))
    (default_providers H (rt w1)) →
  ∃ st, stateCache (rt w1) !! id message = Some st
        ∧ (composeState H message filterList includeList w).1 = Return st
        ∧ composeState H message None None w1 = (Return st, w1).
Proof.
  rewrite composeState_run. cbn [fst snd].
  set (cs := cached_state (rt w) message).
  set (sel := providersToGet H (rt w) cs filterList includeList).
  set (st := newState cs (fetch H (rt w) message cs <$> sel)).
  set (w1 := composed_world message cs st sel w).
  assert (cached_state (rt w1) message = st) as Hcs.
  { unfold cached_state, w1. simpl. by rewrite lookup_insert_eq. }
  rewrite Hcs. intros Hall. exists st.
  split; [unfold w1; simpl; apply lookup_insert_eq|]. split; [done|].
  rewrite composeState_run. cbn zeta. rewrite Hcs.
  rewrite (nothing_to_get H (rt w1) st Hall). rewrite fmap_nil.
  unfold st. rewrite newState_fixed. fold st.
  f_equal. apply composed_world_again.
Qed.

(** C1. After a [composeState] call for a message, when the cache entry
    of the message holds the output of every registered non-private,
    non-dynamic provider, a call without filter and include list invokes
    no provider (the trace, like the rest of the world, is unchanged) and
    returns the cached snapshot: the same values, data and text. *)
Theorem composeState_idempotent (H : Heap) message filterList includeList w :
  let w1 := (composeState H message filterList includeList w).2 in
  Forall (λ p, provider_name (providerAt H p)
                 ∈ existingProviderNames (cached_state (rt w1) message))
    (default_providers H (rt w1)) →
  ∃ st, stateCache (rt w1) !! id message = Some st
        ∧ composeState H message None None w1 = (Return st, w1)
        ∧ invoked_providers
            (trace (composeState H message None None w1).2)
          = invoked_providers (trace w1).
Proof.
  intros w1 Hall.
  destruct (composeState_again H message filterList includeList w Hall)
    as (st & Hst & _ & Hrun).
  exists st. fold w1 in Hrun. by rewrite Hrun.
Qed.

Lemma composeState_idempotent_witness :
  let w1 := (composeState Sample.heap Sample.message None None
               Sample.world).2 in
  ∃ st, stateCache (rt w1) !! id Sample.message = Some st
        ∧ composeState Sample.heap Sample.message None None w1
          = (Return st, w1)
        ∧ invoked_providers
            (trace (composeState Sample.heap Sample.message None None w1).2)
          = invoked_providers (trace w1).
Proof.
  apply (composeState_idempotent Sample.heap Sample.message None None
           Sample.world).
  apply (bool_decide_unpack _). vm_compute. reflexivity.
Defined.

Lemma combined_keys (pd : list (ProviderResult * string)) (o : JS.obj) k :
  k ∈ o.*1 ∨ k ∈ pd.*2 →
  k ∈ (foldl (λ acc result,
                JS.set result.2
                  (JS.or (result_values result.1) (JS.VObj [])) acc)
         o pd).*1.
Proof.
  revert o. induction pd as [|res pd IH]; intros o [Hk|Hk]; simpl;
    try done.
  - by inv Hk.
  - apply IH. left. by apply set_keys_mono.
  - rewrite fmap_cons in Hk. apply elem_of_cons in Hk as [->|Hk].
    + apply IH. left. apply set_key.
    + apply IH. by right.
Qed.

(** Every default provider is cached after a call without filter. *)
Lemma default_providers_cached (H : Heap) (r : Runtime) message
    (cs : State) includeList :
  let sel := providersToGet H r cs None includeList in
  Forall (λ p, provider_name (providerAt H p)
                 ∈ (combinedValues cs (fetch H r message cs <$> sel)).*1)
    (default_providers H r).
Proof.
  intros sel. apply Forall_forall. intros p Hp.
  apply list_elem_of_filter in Hp as [[Hpr Hdy] Hin].
  unfold combinedValues. apply combined_keys.
  destruct (decide (provider_name (providerAt H p)
                    ∈ existingProviderNames cs)) as [Hex|Hex].
  - left. unfold existingProviderNames in Hex. unfold JS.or.
    destruct (JS.truthy (cached_providers cs)); [done|by inv Hex].
  - right. rewrite <- list_fmap_compose. apply list_elem_of_fmap.
    exists p. split; [done|].
    unfold sel, providersToGet.
    rewrite (sort_perm (λ p, position_or_0 (providerAt H p))).
    apply elem_of_distinct, list_elem_of_filter. split; [|done].
    unfold providerNames. simpl. apply elem_of_union_l, elem_of_list_to_set.
    apply list_elem_of_fmap. exists p. split; [done|].
    by apply list_elem_of_filter.
Qed.

(** Calling [composeState] twice without filter list (with or without an
    include list the first time): the second call returns the snapshot of
    the first and leaves the world as the first call left it. *)
Lemma composeState_twice (H : Heap) message includeList w :
  let first := composeState H message None includeList w in
  composeState H message None None first.2 = first.
Proof.
  intros first.
  destruct (composeState_again H message None includeList w)
    as (st & _ & H1 & H2).
  - rewrite composeState_run. cbn [fst snd].
    set (cs := cached_state (rt w) message).
    set (sel := providersToGet H (rt w) cs None includeList).
    unfold cached_state at 1. simpl. rewrite lookup_insert_eq. simpl.
    unfold existingProviderNames. rewrite newState_cached_providers. simpl.
    apply (default_providers_cached H (rt w) message cs includeList).
  - fold first in H1, H2. rewrite H2, <- H1. by destruct first.
Qed.

(** ** Batches of promises *)

Lemma first_rejection_elem {A} (os : list (Outcome A)) e :
  first_rejection os = Some e → Throw e ∈ os.
Proof.
  induction os as [|[a|e'] os IH]; simpl; [done|..].
  - intros Hq. right. auto.
  - intros [= ->]. by left.
Qed.

Lemma first_rejection_none {A} (os : list (Outcome A)) :
  first_rejection os = None ↔ Forall (λ o, ∃ a, o = Return a) os.
Proof.
  induction os as [|[a|e] os IH]; simpl.
  - split; [constructor|done].
  - rewrite IH. split; [intros; constructor; eauto|].
    by intros [_ ?]%Forall_cons.
  - split; [done|]. intros [[a Ha] _]%Forall_cons. done.
Qed.

Lemma imap_snd {A} (f : nat → A → nat * A) (l : list A) :
  (∀ i a, (f i a).2 = a) → (imap f l).*2 = l.
Proof.
  revert f. induction l as [|a l IH]; intros f Hf; [done|].
  simpl. rewrite Hf. f_equal. apply IH. intros i b. apply Hf.
Qed.

(** The order of settlement is a permutation of the batch. *)
Lemma by_time_perm {A} (t : nat → nat) (l : list A) :
  (by_time t l).*2 ≡ₚ l.
Proof.
  unfold by_time.
  rewrite (sort_perm (λ a : nat * A, Z.of_nat (t a.1))).
  by rewrite imap_snd.
Qed.

Lemma first_in_time_elem {A} (t : nat → nat) (os : list (Outcome A)) e :
  first_in_time t os = Some e → Throw e ∈ os.
Proof.
  intros Hq. apply first_rejection_elem in Hq.
  by rewrite by_time_perm in Hq.
Qed.

Lemma first_in_time_none {A} (t : nat → nat) (os : list (Outcome A)) :
  first_in_time t os = None ↔ first_rejection os = None.
Proof.
  unfold first_in_time. rewrite !first_rejection_none.
  by rewrite by_time_perm.
Qed.

Lemma insert_sorted_fmap {A B} (f : A → B) (cmpA : A → A → Z)
    (cmpB : B → B → Z) (x : A) (l : list A) :
  (∀ a b, cmpB (f a) (f b) = cmpA a b) →
  JS.insert_sorted cmpB (f x) (f <$> l) = f <$> JS.insert_sorted cmpA x l.
Proof.
  intros Hf. induction l as [|y l IH]; [done|].
  rewrite fmap_cons. cbn [JS.insert_sorted]. rewrite Hf.
  destruct (cmpA x y <=? 0)%Z; [done|]. by rewrite IH.
Qed.

Lemma sort_fmap {A B} (f : A → B) (cmpA : A → A → Z) (cmpB : B → B → Z)
    (l : list A) :
  (∀ a b, cmpB (f a) (f b) = cmpA a b) →
  JS.sort cmpB (f <$> l) = f <$> JS.sort cmpA l.
Proof.
  intros Hf. induction l as [|x l IH]; [done|].
  change (JS.sort cmpB (f <$> x :: l))
    with (JS.insert_sorted cmpB (f x) (JS.sort cmpB (f <$> l))).
  rewrite IH. by apply insert_sorted_fmap.
Qed.

Lemma imap_zip_fst {A B} (g : nat → nat) (l : list A) (os : list B) :
  length os = length l →
  (λ x : nat * (A * B), (x.1, x.2.1)) <$> imap (λ i a, (g i, a)) (zip l os)
  = imap (λ i a, (g i, a)) l.
Proof.
  revert g os. induction l as [|a l IH]; intros g [|o os] Hl; try done.
  simpl. f_equal. injection Hl as Hl.
  apply (IH (g ∘ S) os Hl).
Qed.

(** The members of a batch settle in an order that their positions
    decide, whatever they are paired with. *)
Lemma by_time_zip {A B} (t : nat → nat) (l : list A) (os : list B) :
  length os = length l →
  (by_time t (zip l os)).*2.*1 = (by_time t l).*2.
Proof.
  intros Hl. unfold by_time.
  assert ((λ x : nat * (A * B), (x.1, x.2.1)) <$> imap pair (zip l os)
          = imap pair l) as <- by apply (imap_zip_fst (λ i, i) l os Hl).
  rewrite (sort_fmap (λ x : nat * (A * B), (x.1, x.2.1))
             (λ a b, (Z.of_nat (t a.1) - Z.of_nat (t b.1))%Z)) by done.
  rewrite <- !list_fmap_compose. done.
Qed.

(** ** The composer with providers that act on the runtime (C9) *)

Lemma launch_all_cons {A} (m : M A) (l : list (M A)) (w : World) :
  launch_all (m :: l) w
  = match launch_all l (m w).2 with
    | (Return os, w2) => (Return ((m w).1 :: os), w2)
    | (Throw e, w2) => (Throw e, w2)
    end.
Proof.
  simpl. unfold bind, settle, ret. destruct (m w) as [o w1]. simpl.
  by destruct (launch_all l w1) as [[os|e] w2].
Qed.

Lemma launch_all_returns {A} (l : list (M A)) (w : World) :
  ∃ os, launch_all l w = (Return os, (launch_all l w).2)
        ∧ length os = length l.
Proof.
  revert w. induction l as [|m l IH]; intros w.
  - by exists [].
  - rewrite launch_all_cons. destruct (IH (m w).2) as (os & -> & Hl).
    exists ((m w).1 :: os). simpl. by rewrite Hl.
Qed.


Lemma returned_all {A} (l : list A) : returned (Return <$> l) = l.
Proof. induction l; simpl; [done|]. by f_equal. Qed.

Lemma first_rejection_returns {A} (l : list A) :
  first_rejection (Return <$> l) = None.
Proof. by induction l. Qed.

(** For providers that leave the world alone and return, the composer
    is [composeState]. *)
Lemma composeState_pure (H : Heap) (settled : nat → nat) message filterList
    includeList w :
  Effectful.composeState H (pure_get H) settled message filterList
    includeList w
  = composeState H message filterList includeList w.
Proof.
  rewrite composeState_run. cbv zeta.
  unfold Effectful.composeState. unfold bind at 1, this at 1. cbn [fst snd].
  set (cs := cached_state (rt w) message).
  set (sel := providersToGet H (rt w) cs filterList includeList).
  assert (∀ l w0, rt w0 = rt w →
            launch_all (Effectful.fetching H (pure_get H) message cs <$> l) w0
            = (Return (Return <$> (fetch H (rt w) message cs <$> l)),
               logged ((λ p, ProviderGet p message cs) <$> l) w0)) as Hl.
  { induction l as [|p l IH]; intros w0 Hw0.
    - simpl. unfold ret. by rewrite logged_nil.
    - rewrite fmap_cons, launch_all_cons.
      unfold Effectful.fetching at 1 3, pure_get, bind, emit, this, ret.
      cbn [fst snd rt]. rewrite IH by done. rewrite Hw0.
      f_equal. unfold logged. simpl. by rewrite <- app_assoc. }
  unfold bind at 1. rewrite Hl by done.
  rewrite (proj2 (first_in_time_none _ _)) by apply first_rejection_returns.
  rewrite returned_all. done.
Qed.

Lemma launch_all_fetching_cache (H : Heap)
    (get : ref → Runtime → Memory → State → M ProviderResult) message cs
    (k : UUID) (l : list ref) (w : World) :
  (∀ p r w', stateCache (rt (get p r message cs w').2) !! k
             = stateCache (rt w') !! k) →
  stateCache
    (rt (launch_all (Effectful.fetching H get message cs <$> l) w).2) !! k
  = stateCache (rt w) !! k.
Proof.
  intros Hget. revert w. induction l as [|p l IH]; intros w; [done|].
  rewrite fmap_cons, launch_all_cons.
  match goal with |- context [launch_all _ ?w1] =>
    specialize (IH w1); destruct (launch_all _ w1) as [[os|e] w2] end;
    simpl in *; rewrite IH;
    unfold Effectful.fetching, bind, emit, this; simpl;
    match goal with |- context [get p ?r message cs ?w'] =>
      specialize (Hget p r w');
      destruct (get p r message cs w') as [[res|e'] w3] end;
    simpl in *; by rewrite Hget.
Qed.

(** C9. Of its own, [composeState] writes the state cache at
    [message.id] only. At every other key the entry after the call is the
    entry before it, whether the call returns or throws, provided the
    providers leave that entry alone: a provider is handed the runtime,
    and what it writes to the cache there stays written. *)
Theorem composeState_frame (H : Heap)
    (get : ref → Runtime → Memory → State → M ProviderResult)
    (settled : nat → nat) message filterList includeList (w : World)
    (k : UUID) :
  k ≠ id message →
  (∀ p r cs w', stateCache (rt (get p r message cs w').2) !! k
                = stateCache (rt w') !! k) →
  stateCache
    (rt (Effectful.composeState H get settled message filterList includeList
           w).2) !! k
  = stateCache (rt w) !! k.
Proof.
  intros Hk Hget. unfold Effectful.composeState.
  unfold bind at 1, this at 1. cbn [fst snd].
  set (cs := cached_state (rt w) message).
  set (sel := providersToGet H (rt w) cs filterList includeList).
  pose proof (launch_all_fetching_cache H get message cs k sel w
                (λ p r w', Hget p r cs w')) as Hl.
  unfold bind at 1.
  destruct (launch_all_returns (Effectful.fetching H get message cs <$> sel)
              w) as (os & E & _).
  rewrite E. rewrite E in Hl. simpl in Hl.
  destruct (first_in_time settled os); simpl; [done|].
  by rewrite lookup_insert_ne.
Qed.

Lemma composeState_frame_witness :
  let run :=
    Effectful.composeState Sample.heap (pure_get Sample.heap) (λ i, i)
      Sample.message None None remembering in
  stateCache (rt run.2) !! "m0" = stateCache (rt remembering) !! "m0"
  ∧ is_Some (stateCache (rt remembering) !! "m0")
  ∧ is_Some (stateCache (rt run.2) !! id Sample.message).
Proof.
  split; [|split; eexists; vm_compute; reflexivity].
  apply (composeState_frame Sample.heap (pure_get Sample.heap) (λ i, i)
           Sample.message None None remembering "m0").
  - discriminate.
  - reflexivity.
Defined.

(** C9 with "for every key other than [message.id] the entry after the
    call equals the entry before" fails when a provider uses the runtime
    it is handed: here the providers compose the state of the message m9
    first. Before the call for m1 the cache has no entry for m9; after
    it, it has one. *)
Lemma composeState_provider_writes_cache :
  let run :=
    Effectful.composeState Sample.heap (nosy_get Sample.heap other_message)
      (λ i, i) Sample.message None None remembering in
  id other_message ≠ id Sample.message
  ∧ stateCache (rt remembering) !! id other_message = None
  ∧ is_Some (stateCache (rt run.2) !! id other_message)
  ∧ stateCache (rt run.2) !! id other_message
    ≠ stateCache (rt remembering) !! id other_message.
Proof.
  assert (∃ st, stateCache
                  (rt (Effectful.composeState Sample.heap
                         (nosy_get Sample.heap other_message) (λ i, i)
                         Sample.message None None remembering).2)
                  !! id other_message = Some st) as [st Hst]
    by (eexists; vm_compute; reflexivity).
  cbv zeta. rewrite Hst. repeat split; done.
Qed.


(** * Further properties of the code *)

(** ** Settings: [setSetting] and [getSetting] together *)

Section MoreObjects.
Implicit Types (o : JS.obj) (k : string) (v : JS.value).

Lemma lookup_cons k' k v o :
  JS.lookup k' ((k, v) :: o)
  = if bool_decide (k = k') then Some v else JS.lookup k' o.
Proof. unfold JS.lookup. simpl. by case_bool_decide. Qed.

Lemma lookup_overwrite_ne k' k v o :
  k' ≠ k → JS.lookup k' (JS.overwrite k v o) = JS.lookup k' o.
Proof.
  intros Hne. induction o as [|[k0 v0] o IH]; [done|].
  unfold JS.overwrite in *. rewrite fmap_cons. simpl.
  case_bool_decide; subst; rewrite !lookup_cons, IH;
    repeat case_bool_decide; congruence.
Qed.

Lemma lookup_insert_index_ne k' n k v o :
  k' ≠ k → JS.lookup k' (JS.insert_index n k v o) = JS.lookup k' o.
Proof.
  intros Hne. induction o as [|[k0 v0] o IH]; simpl.
  - rewrite lookup_cons. by rewrite bool_decide_eq_false_2.
  - destruct (JS.array_index k0) as [n0|];
      [destruct (n0 <? n)%N|];
      rewrite ?(lookup_cons k' k), ?(lookup_cons k' k0), ?IH;
      repeat case_bool_decide; congruence.
Qed.

Lemma lookup_snoc_ne k' k v o :
  k' ≠ k → JS.lookup k' (o ++ [(k, v)]) = JS.lookup k' o.
Proof.
  intros Hne. induction o as [|[k0 v0] o IH]; simpl.
  - rewrite lookup_cons. by rewrite bool_decide_eq_false_2.
  - rewrite !lookup_cons, IH. done.
Qed.

(** Assigning one property leaves the others as they are. *)
Lemma lookup_set_ne k' k v o :
  k' ≠ k → JS.lookup k' (JS.set k v o) = JS.lookup k' o.
Proof.
  intros Hne. unfold JS.set, JS.insert_new.
  destruct (JS.has k o); [by apply lookup_overwrite_ne|].
  destruct (JS.array_index k).
  - by apply lookup_insert_index_ne.
  - by apply lookup_snoc_ne.
Qed.

Lemma get_set_eq k v o : JS.get (JS.VObj (JS.set k v o)) k = v.
Proof. unfold JS.get. simpl. by rewrite lookup_set_eq. Qed.

Lemma get_set_ne k' k v o :
  k' ≠ k → JS.get (JS.VObj (JS.set k v o)) k' = JS.get (JS.VObj o) k'.
Proof. intros. unfold JS.get. simpl. by rewrite lookup_set_ne. Qed.

End MoreObjects.

Lemma or_truthy a b : JS.truthy a = true → JS.or a b = a.
Proof. intros Ha. unfold JS.or. by rewrite Ha. Qed.

Lemma or_falsy a b : JS.truthy a = false → JS.or a b = b.
Proof. intros Ha. unfold JS.or. by rewrite Ha. Qed.

Lemma coerce_setting_str s :
  coerce_setting (JS.VStr s) =
  if bool_decide (s = "true") then JS.VBool true
  else if bool_decide (s = "false") then JS.VBool false
  else if bool_decide (s = "") then JS.VNull else JS.VStr s.
Proof.
  do 6 (try (destruct s as [|[[] [] [] [] [] [] [] []] s]; try reflexivity)).
Qed.

Lemma coerce_setting_range v :
  coerce_setting v = JS.VNull
  ∨ coerce_setting v = JS.VBool false
  ∨ (JS.truthy (coerce_setting v) = true
     ∧ coerce_setting v ≠ JS.VStr "true"
     ∧ coerce_setting v ≠ JS.VStr "false").
Proof.
  destruct v as [| |b|n|s|l|o].
  - by left.
  - by left.
  - destruct b; [right; right; by repeat split|by left].
  - unfold coerce_setting. simpl. destruct (n =? 0)%Z eqn:E; simpl;
      [by left|].
    right; right. simpl. rewrite E. by repeat split.
  - rewrite coerce_setting_str. repeat case_bool_decide; auto.
    right; right. simpl. rewrite bool_decide_eq_false_2 by done.
    repeat split; congruence.
  - right; right. by repeat split.
  - right; right. by repeat split.
Qed.

(** X1. [getSetting] never returns undefined, the empty string, 0 or the
    strings true and false: its result is null, the boolean false, or a
    truthy value other than these two strings. *)
Theorem getSetting_range environment r key :
  getSetting environment r key = JS.VNull
  ∨ getSetting environment r key = JS.VBool false
  ∨ (JS.truthy (getSetting environment r key) = true
     ∧ getSetting environment r key ≠ JS.VStr "true"
     ∧ getSetting environment r key ≠ JS.VStr "false").
Proof. rewrite getSetting_coerce. apply coerce_setting_range. Qed.

Lemma setSetting_secret_run key v w o :
  secrets (character (rt w)) = Some o →
  setSetting key v true w
  = (Return tt,
     {| rt := with_character
                {| character_name := character_name (character (rt w));
                   secrets := Some (JS.set key v o);
                   settings := settings (character (rt w)) |} (rt w);
        auditLog := auditLog w; trace := trace w |}).
Proof.
  intros Ho. unfold setSetting, bind, this. simpl. by rewrite Ho.
Qed.

Lemma setSetting_public_run key v w o :
  settings (character (rt w)) = Some o →
  setSetting key v false w
  = (Return tt,
     {| rt := with_character
                {| character_name := character_name (character (rt w));
                   secrets := secrets (character (rt w));
                   settings := Some (JS.set key v o) |} (rt w);
        auditLog := auditLog w; trace := trace w |}).
Proof.
  intros Ho. unfold setSetting, bind, this. simpl. by rewrite Ho.
Qed.

Lemma setSetting_missing key v (secret : bool) w :
  (if secret then secrets (character (rt w))
   else settings (character (rt w))) = None →
  setSetting key v secret w = (Throw TypeError, w).
Proof.
  intros Ho. unfold setSetting, bind, this. simpl.
  destruct secret; by rewrite Ho.
Qed.

(** X2. A secret set with [setSetting] under a key other than
    [__proto__] is what [getSetting] returns for the key, coerced,
    whatever the other sources hold, provided the value is truthy; a
    falsy value (false, the empty string, 0, null) is passed over, and
    the key reads as the sources below the secrets give it. Without a
    [secrets] object the assignment is a TypeError. *)
Theorem setSetting_secret_then_get environment key v w :
  key ≠ "__proto__" →
  match secrets (character (rt w)) with
  | None => setSetting key v true w = (Throw TypeError, w)
  | Some _ =>
      (setSetting key v true w).1 = Return tt
      ∧ getSetting environment (rt (setSetting key v true w).2) key
        = if JS.truthy v then coerce_setting v
          else lower_setting environment (rt w) key
  end.
Proof.
  intros _.
  destruct (secrets (character (rt w))) as [o|] eqn:Ho.
  - rewrite (setSetting_secret_run _ _ _ o Ho). split; [done|].
    rewrite getSetting_coerce. simpl. rewrite get_set_eq.
    destruct (JS.truthy v) eqn:Ev.
    + by rewrite !(or_truthy v).
    + by rewrite (or_falsy v).
  - unfold setSetting, bind, this. simpl. by rewrite Ho.
Qed.

Lemma setSetting_secret_then_get_witness :
  (setSetting "TOKEN" (JS.VStr "true") true Sample.world).1 = Return tt
  ∧ getSetting []
      (rt (setSetting "TOKEN" (JS.VStr "true") true Sample.world).2) "TOKEN"
    = JS.VBool true.
Proof.
  apply (setSetting_secret_then_get [] "TOKEN" (JS.VStr "true")
           Sample.world).
  discriminate.
Defined.

(** X3. A setting stored without the secret flag, under a key other than
    [__proto__], is shadowed by a truthy secret under the same key;
    without one, a truthy value is what [getSetting] returns, coerced. *)
Theorem setSetting_public_then_get environment key v w o :
  key ≠ "__proto__" →
  settings (character (rt w)) = Some o →
  getSetting environment (rt (setSetting key v false w).2) key
  = if JS.truthy (opt_get (secrets (character (rt w))) key)
    then coerce_setting (opt_get (secrets (character (rt w))) key)
    else if JS.truthy v then coerce_setting v
    else lowest_setting environment (rt (setSetting key v false w).2) key.
Proof.
  intros _ Ho. rewrite (setSetting_public_run _ _ _ o Ho).
  rewrite getSetting_coerce. unfold lowest_setting. simpl.
  rewrite get_set_eq.
  destruct (JS.truthy (opt_get (secrets (character (rt w))) key)) eqn:Es.
  - by rewrite !(or_truthy _ _ Es).
  - rewrite (or_falsy _ _ Es). destruct (JS.truthy v) eqn:Ev.
    + by rewrite !(or_truthy v).
    + by rewrite (or_falsy v).
Qed.

Lemma setSetting_public_then_get_witness :
  getSetting [] (rt (setSetting "TOKEN" (JS.VStr "xyz") false
                       Sample.world).2) "TOKEN"
  = JS.VStr "xyz".
Proof.
  apply (setSetting_public_then_get [] "TOKEN" (JS.VStr "xyz") Sample.world
           [("TOKEN", JS.VStr "abc")]).
  - discriminate.
  - reflexivity.
Defined.

(** X4. [setSetting] on one key, other than [__proto__], leaves what
    [getSetting] returns for every other key, except that storing a
    setting under the key secrets replaces the nested secrets object all
    keys are looked up in. *)
Theorem setSetting_frame environment key key' v secret w :
  key ≠ "__proto__" →
  key' ≠ key →
  secret = true ∨ key ≠ "secrets" →
  getSetting environment (rt (setSetting key v secret w).2) key'
  = getSetting environment (rt w) key'.
Proof.
  intros _ Hne Hsec. rewrite !getSetting_coerce.
  destruct secret.
  - destruct (secrets (character (rt w))) as [o|] eqn:Ho.
    + rewrite (setSetting_secret_run _ _ _ o Ho). simpl.
      by rewrite ?Ho, get_set_ne.
    + rewrite (setSetting_missing _ _ true w Ho). simpl. by rewrite Ho.
  - destruct Hsec as [?|Hsec]; [done|].
    destruct (settings (character (rt w))) as [o|] eqn:Ho.
    + rewrite (setSetting_public_run _ _ _ o Ho). simpl.
      rewrite ?Ho. unfold opt_get_nested. simpl.
      rewrite get_set_ne by done. by rewrite (get_set_ne "secrets").
    + rewrite (setSetting_missing _ _ false w Ho). simpl. by rewrite Ho.
Qed.

Lemma setSetting_frame_witness :
  getSetting [] (rt (setSetting "OTHER" (JS.VStr "x") true Sample.world).2)
    "TOKEN"
  = getSetting [] (rt Sample.world) "TOKEN".
Proof.
  apply (setSetting_frame [] "OTHER" "TOKEN" (JS.VStr "x") true Sample.world).
  - discriminate.
  - discriminate.
  - by left.
Defined.

(** ** State composer: the shape of a snapshot *)









Lemma prefix_append (s t : string) : String.prefix s (s +:+ t) = true.
Proof.
  induction s as [|c s IH]; simpl; [by destruct t|].
  destruct (ascii_dec c c); [done|congruence].
Qed.

Lemma prefix_refl (s : string) : String.prefix s s = true.
Proof.
  induction s as [|c s IH]; simpl; [done|].
  destruct (ascii_dec c c); [done|congruence].
Qed.

Lemma providersText_prefix cs pd :
  String.prefix (text cs) (providersText cs pd) = true.
Proof.
  unfold providersText, nonempty.
  case_bool_decide as E1; simpl.
  - rewrite E1. simpl. case_bool_decide; by destruct (newProvidersText pd).
  - case_bool_decide as E2; simpl.
    + apply prefix_refl.
    + apply prefix_append.
Qed.

(** X7. [composeState] never drops cached text: the text cached for the
    message is a prefix of the text of the new snapshot, and the text is
    unchanged when no provider is invoked. *)
Theorem composeState_text_grows (H : Heap) message filterList includeList w :
  ∃ st,
    (composeState H message filterList includeList w).1 = Return st
    ∧ String.prefix (text (cached_state (rt w) message)) (text st) = true
    ∧ match providersToGet H (rt w) (cached_state (rt w) message)
              filterList includeList with
      | [] => text st = text (cached_state (rt w) message)
      | _ :: _ => True
      end.
Proof.
  rewrite composeState_run. cbn zeta. eexists. split; [done|].
  split; [apply providersText_prefix|].
  destruct (providersToGet _ _ _ _ _); [|done].
  simpl. unfold providersText, nonempty. simpl.
  by case_bool_decide as E; simpl; [rewrite E|].
Qed.

Lemma NoDup_distinct (l : list ref) : NoDup (distinct l).
Proof.
  induction l as [|x l IH]; simpl; [constructor|].
  apply NoDup_cons. split.
  - rewrite list_elem_of_filter. naive_solver.
  - by apply NoDup_filter.
Qed.

(** X8. With a non-empty filter list [composeState] invokes exactly the
    registered providers named in the filter list or the include list,
    also private, dynamic and already cached ones, each once, and names
    of no registered provider are ignored; the order is ascending
    position, registration order on ties. *)
Theorem composeState_filtered (H : Heap) message (filterList : list string)
    includeList w :
  filterList ≠ [] →
  ∃ (order : list ref) (st : State),
    composeState H message (Some filterList) includeList w
    = (Return st,
       composed_world message (cached_state (rt w) message) st order w)
    ∧ NoDup order
    ∧ (∀ p, p ∈ order
            ↔ p ∈ providers (rt w)
              ∧ provider_name (providerAt H p)
                  ∈ filterList ++ given includeList)
    ∧ StronglySorted (by_position H) order
    ∧ (∀ z, filter (λ p, position_or_0 (providerAt H p) = z) order
            = filter (λ p, position_or_0 (providerAt H p) = z)
                (distinct
                   (filter (λ p, provider_name (providerAt H p)
                                   ∈ filterList ++ given includeList)
                      (providers (rt w))))).
Proof.
  intros Hfl. rewrite composeState_run. cbn zeta.
  set (cs := cached_state (rt w) message).
  set (key := λ p, position_or_0 (providerAt H p)).
  assert (providersToGet H (rt w) cs (Some filterList) includeList
          = JS.sort (λ a b, (key a - key b)%Z)
              (distinct
                 (filter (λ p, provider_name (providerAt H p)
                                 ∈ filterList ++ given includeList)
                    (providers (rt w))))) as ->.
  { unfold providersToGet. do 2 f_equal. apply list_filter_iff. intros p.
    unfold providerNames. simpl. destruct filterList; [done|].
    rewrite elem_of_union, !elem_of_list_to_set, elem_of_app. done. }
  eexists _, _. split; [done|].
  split; [rewrite (sort_perm key); apply NoDup_distinct|].
  split.
  { intros p. rewrite (sort_perm key), elem_of_distinct, list_elem_of_filter.
    naive_solver. }
  split; [apply (sort_sorted key)|].
  intros z. apply (sort_stable key).
Qed.

Lemma composeState_filtered_witness :
  ∃ (order : list ref) (st : State),
    composeState Sample.heap Sample.message (Some ["P2"; "nobody"]) None
      Sample.world
    = (Return st,
       composed_world Sample.message
         (cached_state (rt Sample.world) Sample.message) st order
         Sample.world)
    ∧ NoDup order
    ∧ (∀ p, p ∈ order
            ↔ p ∈ providers (rt Sample.world)
              ∧ provider_name (providerAt Sample.heap p)
                  ∈ ["P2"; "nobody"] ++ given None)
    ∧ StronglySorted (by_position Sample.heap) order
    ∧ (∀ z, filter (λ p, position_or_0 (providerAt Sample.heap p) = z) order
            = filter (λ p, position_or_0 (providerAt Sample.heap p) = z)
                (distinct
                   (filter (λ p, provider_name (providerAt Sample.heap p)
                                   ∈ ["P2"; "nobody"] ++ given None)
                      (providers (rt Sample.world))))).
Proof.
  apply (composeState_filtered Sample.heap Sample.message ["P2"; "nobody"]
           None Sample.world).
  discriminate.
Defined.

(** The override law for a provider fetched alone. *)






(** ** Action dispatcher: edge cases of the loop and of the lookup *)

Lemma response_loop_without_actions (H : Heap) message responses callback
    (todo : list Memory) (st : option State) (w : World) :
  Forall (λ r, content_actions r = None ∨ content_actions r = Some []) todo →
  response_loop H message responses callback todo st w
  = (Return tt, logged (replicate (length todo) WarnNoActionInResponse) w).
Proof.
  intros Hall. revert w. induction Hall as [|r todo Hr Hall IH]; intros w.
  - simpl. by rewrite logged_nil.
  - simpl. unfold bind, emit.
    destruct Hr as [-> | ->]; simpl; rewrite IH; f_equal;
      unfold logged; simpl; by rewrite <- app_assoc.
Qed.

(** X10. A batch in which no response names an action (an empty batch
    included) is processed without composing state: [processActions]
    returns, writes one warning per response, and leaves the runtime, the
    state cache and the audit log as they were. *)
Theorem processActions_without_actions (H : Heap) message responses state
    callback w :
  Forall (λ r, content_actions r = None ∨ content_actions r = Some [])
    responses →
  processActions H message responses state callback w
  = (Return tt,
     logged (replicate (length responses) WarnNoActionInResponse) w).
Proof. apply response_loop_without_actions. Qed.

Lemma processActions_without_actions_witness :
  processActions Sample.heap Sample.message
    [Sample.message; Sample.reply []] None None Sample.world
  = (Return tt,
     logged (replicate 2 WarnNoActionInResponse) Sample.world).
Proof.
  apply (processActions_without_actions Sample.heap Sample.message
           [Sample.message; Sample.reply []] None None Sample.world).
  constructor; [by left|]. constructor; [by right|]. constructor.
Defined.

Lemma includes_refl s : JS.includes s s = true.
Proof.
  destruct s as [|c s]; [done|].
  change (JS.includes (String c s) (String c s))
    with (String.prefix (String c s) (String c s)
          || JS.includes s (String c s)).
  by rewrite prefix_refl.
Qed.

Lemma includes_empty s : JS.includes s "" = true.
Proof. by destruct s. Qed.

Lemma find_first_match {A} (f : A → bool) (l : list A) (x : A) :
  x ∈ l → f x = true → ∃ y, List.find f l = Some y ∧ f y = true.
Proof.
  induction l as [|z l IH]; intros Hx Hf; [by inv Hx|].
  simpl. destruct (f z) eqn:Ez; [by exists z|].
  apply elem_of_cons in Hx as [->|Hx]; [congruence|]. by apply IH.
Qed.

(** X11. A registered action can always be requested by its own name, in
    any letter case: the lookup by name succeeds without an error line.
    The action found is the first in registration order that matches,
    which need not be the one with the equal name. *)
Theorem own_name_resolves (H : Heap) (r : Runtime) (a : ref)
    (requested : string) :
  a ∈ actions r →
  JS.toLowerCase requested = JS.toLowerCase (action_name (actionAt H a)) →
  ∃ b, resolve H r requested = Some b
       ∧ find_by_name H r (normalizeAction requested) = Some b
       ∧ fuzzy_match (normalizeAction requested)
           (action_name (actionAt H b)) = true
       ∧ lookup_errors H r requested = [].
Proof.
  intros Ha Hcase.
  destruct (find_first_match
              (λ a, fuzzy_match (normalizeAction requested)
                      (action_name (actionAt H a)))
              (actions r) a Ha) as (b & Hb & Hm).
  { unfold fuzzy_match, normalizeAction. rewrite Hcase.
    by rewrite includes_refl. }
  exists b. unfold resolve, lookup_errors, find_by_name. by rewrite Hb.
Qed.

Lemma own_name_resolves_witness :
  ∃ b, resolve Sample.heap Sample.runtime "fail" = Some b
       ∧ find_by_name Sample.heap Sample.runtime (normalizeAction "fail")
         = Some b
       ∧ fuzzy_match (normalizeAction "fail")
           (action_name (actionAt Sample.heap b)) = true
       ∧ lookup_errors Sample.heap Sample.runtime "fail" = [].
Proof.
  apply (own_name_resolves Sample.heap Sample.runtime 1 "fail").
  - set_solver.
  - reflexivity.
Defined.

(** X12. A request that normalizes to the empty string (the empty name,
    or a lone underscore) is contained in every name: it resolves to the
    first registered action. *)
Theorem empty_request_resolves_first (H : Heap) (r : Runtime)
    (requested : string) (a : ref) (l : list ref) :
  normalizeAction requested = "" →
  actions r = a :: l →
  resolve H r requested = Some a ∧ lookup_errors H r requested = [].
Proof.
  intros Hn Ha. unfold resolve, lookup_errors, find_by_name.
  rewrite Hn, Ha. simpl. unfold fuzzy_match. by rewrite includes_empty.
Qed.

Lemma empty_request_resolves_first_witness :
  resolve Sample.heap Sample.runtime "_" = Some 0
  ∧ lookup_errors Sample.heap Sample.runtime "_" = [].
Proof.
  apply (empty_request_resolves_first Sample.heap Sample.runtime "_" 0
           [1; 2]); reflexivity.
Defined.

(** ** Normalisation of action names *)

Lemma lower_ascii_underscore c :
  bool_decide (JS.lower_ascii c = "_"%char) = bool_decide (c = "_"%char).
Proof. by destruct c as [[] [] [] [] [] [] [] []]. Qed.

Lemma count_underscores_lower s :
  count_underscores (JS.toLowerCase s) = count_underscores s.
Proof.
  induction s as [|c s IH]; simpl; [done|].
  by rewrite lower_ascii_underscore, IH.
Qed.

Lemma replace_underscore_cons c s :
  JS.replace "_" "" (String c s)
  = if bool_decide (c = "_"%char) then s else String c (JS.replace "_" "" s).
Proof.
  change (JS.replace "_" "" (String c s))
    with (if String.prefix "_" (String c s)
          then "" +:+ JS.drop_chars (String.length "_") (String c s)
          else String c (JS.replace "_" "" s)).
  cbn [String.prefix]. destruct (ascii_dec "_" c) as [<-|Hne].
  - rewrite bool_decide_eq_true_2 by done. by destruct s.
  - by rewrite bool_decide_eq_false_2.
Qed.

Lemma strip_without_underscores s :
  count_underscores s = 0 → strip_underscores s = s.
Proof.
  induction s as [|c s IH]; simpl; [done|].
  case_bool_decide; [done|]. intros. by rewrite IH.
Qed.

Lemma replace_underscore_facts s :
  count_underscores (JS.replace "_" "" s) = count_underscores s - 1
  ∧ (count_underscores s ≤ 1 → JS.replace "_" "" s = strip_underscores s).
Proof.
  induction s as [|c s [IH1 IH2]]; [done|].
  rewrite replace_underscore_cons. simpl.
  case_bool_decide as Hc; simpl.
  - split; [lia|]. intros. symmetry. apply strip_without_underscores. lia.
  - rewrite bool_decide_eq_false_2 by done. simpl.
    split; [done|]. intros. by rewrite IH2.
Qed.

(** X13. [normalizeAction] deletes exactly one underscore when the name
    has one, and none otherwise; on names with at most one underscore it
    is the lower-cased name with every underscore deleted. *)
Theorem normalizeAction_one_underscore (s : string) :
  count_underscores (normalizeAction s) = count_underscores s - 1
  ∧ (count_underscores s ≤ 1 → normalizeAction s = spec_normalize s).
Proof.
  unfold normalizeAction, spec_normalize.
  destruct (replace_underscore_facts (JS.toLowerCase s)) as [H1 H2].
  rewrite count_underscores_lower in H1, H2. done.
Qed.

Lemma normalizeAction_one_underscore_witness :
  count_underscores (normalizeAction "SEND_MESSAGE") = 0
  ∧ normalizeAction "SEND_MESSAGE" = spec_normalize "SEND_MESSAGE".
Proof.
  destruct (normalizeAction_one_underscore "SEND_MESSAGE") as [H1 H2].
  split; [exact H1|]. apply H2. vm_compute. lia.
Defined.

(** ** Plugin installer: adapters and repeated installs *)

Lemma registerDatabaseAdapter_run (a : ref) (w : World) :
  registerDatabaseAdapter a w
  = match adapter (rt w) with
    | Some _ => (Return tt, logged [WarnAdapterAlreadyRegistered] w)
    | None =>
        (Return tt,
         {| rt := with_adapter (Some a) (rt w); auditLog := auditLog w;
            trace := trace w |})
    end.
Proof.
  unfold registerDatabaseAdapter, bind, this. simpl.
  by destruct (adapter (rt w)).
Qed.

Lemma registerDatabaseAdapter_bound (l : list ref) (w : World) (a : ref) :
  adapter (rt w) = Some a →
  for_each l registerDatabaseAdapter w
  = (Return tt,
     logged (replicate (length l) WarnAdapterAlreadyRegistered) w).
Proof.
  revert w. induction l as [|b l IH]; intros w Ha; simpl.
  - by rewrite logged_nil.
  - unfold bind at 1. rewrite registerDatabaseAdapter_run, Ha.
    rewrite IH by done. by rewrite logged_app.
Qed.

(** X14. The first database adapter registered stays bound: of any
    sequence of [registerDatabaseAdapter] calls, only one made while no
    adapter is bound takes effect, and every other call writes a warning
    and changes nothing. *)
Theorem registerDatabaseAdapter_first_wins (l : list ref) (w : World) :
  for_each l registerDatabaseAdapter w
  = match adapter (rt w), l with
    | Some _, _ =>
        (Return tt,
         logged (replicate (length l) WarnAdapterAlreadyRegistered) w)
    | None, [] => (Return tt, w)
    | None, a :: l' =>
        (Return tt,
         {| rt := with_adapter (Some a) (rt w); auditLog := auditLog w;
            trace := trace w
                     ++ replicate (length l') WarnAdapterAlreadyRegistered |})
    end.
Proof.
  destruct (adapter (rt w)) as [a|] eqn:Ha.
  - by apply (registerDatabaseAdapter_bound l w a).
  - destruct l as [|a l']; [done|]. simpl. unfold bind at 1.
    rewrite registerDatabaseAdapter_run, Ha.
    by rewrite (registerDatabaseAdapter_bound l' _ a).
Qed.

Lemma acts_as_ext m f g : acts_as m f → (∀ c, f c = g c) → acts_as m g.
Proof. intros Hm Hfg w. destruct (Hm w) as (w' & ? & ?). exists w'. by rewrite <- Hfg. Qed.

Lemma acts_as_ret : acts_as (ret tt) Datatypes.id.
Proof. intros w. by exists w. Qed.

Lemma acts_as_modify (h : Runtime → Runtime) f :
  (∀ r, collections (h r) = f (collections r)) → acts_as (modify h) f.
Proof. intros Hh w. eexists. split; [done|]. apply Hh. Qed.

Lemma acts_as_bind m m' f g :
  acts_as m f → acts_as m' g → acts_as (m ;; m') (g ∘ f).
Proof.
  intros Hm Hm' w. destruct (Hm w) as (w1 & E1 & C1).
  destruct (Hm' w1) as (w2 & E2 & C2). exists w2.
  unfold bind. rewrite E1, E2. split; [done|]. simpl. by rewrite C2, C1.
Qed.

Lemma acts_as_for_each {A} (l : list A) (body : A → M unit)
    (g : A → Collections → Collections) :
  (∀ x, acts_as (body x) (g x)) →
  acts_as (for_each l body) (λ c, foldl (λ c x, g x c) c l).
Proof.
  intros Hb. induction l as [|x l IH]; simpl; [apply acts_as_ret|].
  eapply acts_as_ext; [apply (acts_as_bind _ _ _ _ (Hb x) IH)|done].
Qed.

Lemma acts_as_when_present {A} (o : option A) (body : A → M unit)
    (g : A → Collections → Collections) :
  (∀ x, acts_as (body x) (g x)) →
  acts_as (when_present o body) (from_option g Datatypes.id o).
Proof. intros Hb. destruct o; simpl; [apply Hb|apply acts_as_ret]. Qed.

Lemma foldl_id {A} (l : list A) (c : Collections) :
  foldl (λ c _, Datatypes.id c) c l = c.
Proof. by induction l. Qed.

Lemma registerModel_acts modelType h : acts_as (registerModel modelType h) Datatypes.id.
Proof.
  intros w. unfold registerModel, bind, this, modify, ret. simpl.
  destruct (bool_decide _); eexists; (split; [done|done]).
Qed.

Lemma registerEvent_acts event h : acts_as (registerEvent event h) Datatypes.id.
Proof.
  intros w. unfold registerEvent, bind, this, modify, ret. simpl.
  destruct (bool_decide _); eexists; (split; [done|done]).
Qed.

Lemma registerDatabaseAdapter_acts a : acts_as (registerDatabaseAdapter a) Datatypes.id.
Proof.
  intros w. rewrite registerDatabaseAdapter_run.
  destruct (adapter (rt w)); eexists; (split; [done|done]).
Qed.

Lemma ends_with_bind {A} m (k : M A) f g :
  acts_as m f → ends_with k g → ends_with (m ;; k) (g ∘ f).
Proof.
  intros Hm Hk w. destruct (Hm w) as (w1 & E1 & C1).
  unfold bind. rewrite E1. simpl. by rewrite Hk, C1.
Qed.

Lemma ends_with_ext {A} (m : M A) f g :
  ends_with m f → (∀ c, f c = g c) → ends_with m g.
Proof. intros Hm Hfg w. by rewrite Hm. Qed.

Lemma keeps_bind {A B} (m : M A) (k : A → M B) :
  ends_with m Datatypes.id → (∀ a, ends_with (k a) Datatypes.id) → ends_with (bind m k) Datatypes.id.
Proof.
  intros Hm Hk w. unfold bind. specialize (Hm w).
  destruct (m w) as [[a|e] w1]; simpl in *; [|done].
  by rewrite Hk.
Qed.

Lemma keeps_ret {A} (a : A) : ends_with (ret a) Datatypes.id.
Proof. done. Qed.

Lemma keeps_throw {A} e : ends_with (@throw A e) Datatypes.id.
Proof. done. Qed.

Lemma keeps_emit e : ends_with (emit e) Datatypes.id.
Proof. done. Qed.

Lemma keeps_this : ends_with this Datatypes.id.
Proof. done. Qed.

Lemma keeps_settle {A} (m : M A) : ends_with m Datatypes.id → ends_with (settle m) Datatypes.id.
Proof.
  intros Hm w. unfold settle. specialize (Hm w). by destruct (m w).
Qed.

Lemma keeps_for_each {A} (l : list A) (body : A → M unit) :
  (∀ x, ends_with (body x) Datatypes.id) → ends_with (for_each l body) Datatypes.id.
Proof.
  intros Hb. induction l as [|x l IH]; simpl; [done|].
  by apply keeps_bind.
Qed.

Lemma startService_keeps (H : Heap) s : ends_with (startService H s) Datatypes.id.
Proof.
  unfold startService. destruct (service_type _); [|apply keeps_ret].
  apply keeps_bind; [apply keeps_this|]. intros r.
  destruct (bool_decide _).
  - apply keeps_bind; [apply keeps_emit|]. intros. apply keeps_ret.
  - apply keeps_bind; [apply keeps_emit|]. intros.
    destruct (start _ _); [apply keeps_ret|apply keeps_throw].
Qed.

Lemma storeService_keeps started : ends_with (storeService started) Datatypes.id.
Proof. by destruct started as [[ty i]|]. Qed.

Lemma launch_services_keeps (H : Heap) l :
  ends_with (launch_services H l) Datatypes.id.
Proof.
  induction l as [|s l IH]; simpl; [apply keeps_ret|].
  apply keeps_bind; [apply keeps_settle, startService_keeps|]. intros o.
  apply keeps_bind; [done|]. intros. apply keeps_ret.
Qed.

Lemma registerServices_keeps (H : Heap) l :
  ends_with (registerServices H l) Datatypes.id.
Proof.
  unfold registerServices.
  apply keeps_bind; [apply launch_services_keeps|]. intros os.
  apply keeps_bind.
  - apply keeps_for_each. intros [started|e];
      [apply storeService_keeps|apply keeps_ret].
  - intros. destruct (first_rejection os); [apply keeps_throw|apply keeps_ret].
Qed.

(** The sub-registrations of one install, up to the services. *)
Lemma contributions_act (H : Heap) (p : ref) (k : M unit) :
  ends_with k Datatypes.id →
  ends_with
    (when_present (plugin_adapter (pluginAt H p)) registerDatabaseAdapter ;;
     when_present (plugin_actions (pluginAt H p))
       (λ l, for_each l registerAction) ;;
     when_present (plugin_evaluators (pluginAt H p))
       (λ l, for_each l registerEvaluator) ;;
     when_present (plugin_providers (pluginAt H p))
       (λ l, for_each l registerContextProvider) ;;
     when_present (plugin_models (pluginAt H p))
       (λ l, for_each l (λ entry, registerModel entry.1 entry.2)) ;;
     when_present (plugin_routes (pluginAt H p))
       (λ l, for_each l
               (λ route, modify (λ r, with_routes (routes r ++ [route]) r))) ;;
     when_present (plugin_events (pluginAt H p))
       (λ l, for_each l (λ entry, for_each entry.2 (registerEvent entry.1))) ;;
     k)
    (contribute H p).
Proof.
  intros Hk.
  assert (∀ (l : list ref) (c : Collections),
            foldl (λ c a, let '(pl, ac, ev, pr, ro) := c in
                          (pl, ac ++ [a], ev, pr, ro)) c l
            = (let '(pl, ac, ev, pr, ro) := c in (pl, ac ++ l, ev, pr, ro)))
    as Hac.
  { intros l. induction l as [|a l IH]; intros [[[[pl ac] ev] pr] ro]; simpl.
    - by rewrite app_nil_r.
    - rewrite IH. by rewrite <- app_assoc. }
  assert (∀ (l : list ref) (c : Collections),
            foldl (λ c a, let '(pl, ac, ev, pr, ro) := c in
                          (pl, ac, ev ++ [a], pr, ro)) c l
            = (let '(pl, ac, ev, pr, ro) := c in (pl, ac, ev ++ l, pr, ro)))
    as Hev.
  { intros l. induction l as [|a l IH]; intros [[[[pl ac] ev] pr] ro]; simpl.
    - by rewrite app_nil_r.
    - rewrite IH. by rewrite <- app_assoc. }
  assert (∀ (l : list ref) (c : Collections),
            foldl (λ c a, let '(pl, ac, ev, pr, ro) := c in
                          (pl, ac, ev, pr ++ [a], ro)) c l
            = (let '(pl, ac, ev, pr, ro) := c in (pl, ac, ev, pr ++ l, ro)))
    as Hpr.
  { intros l. induction l as [|a l IH]; intros [[[[pl ac] ev] pr] ro]; simpl.
    - by rewrite app_nil_r.
    - rewrite IH. by rewrite <- app_assoc. }
  assert (∀ (l : list ref) (c : Collections),
            foldl (λ c a, let '(pl, ac, ev, pr, ro) := c in
                          (pl, ac, ev, pr, ro ++ [a])) c l
            = (let '(pl, ac, ev, pr, ro) := c in (pl, ac, ev, pr, ro ++ l)))
    as Hro.
  { intros l. induction l as [|a l IH]; intros [[[[pl ac] ev] pr] ro]; simpl.
    - by rewrite app_nil_r.
    - rewrite IH. by rewrite <- app_assoc. }
  eapply ends_with_ext.
  { eapply ends_with_bind.
    { apply (acts_as_when_present _ _ (λ _, Datatypes.id)).
      apply registerDatabaseAdapter_acts. }
    eapply ends_with_bind.
    { apply (acts_as_when_present _ _
               (λ l c, foldl (λ c a, let '(pl, ac, ev, pr, ro) := c in
                                     (pl, ac ++ [a], ev, pr, ro)) c l)).
      intros l. apply acts_as_for_each. intros a.
      by apply acts_as_modify. }
    eapply ends_with_bind.
    { apply (acts_as_when_present _ _
               (λ l c, foldl (λ c a, let '(pl, ac, ev, pr, ro) := c in
                                     (pl, ac, ev ++ [a], pr, ro)) c l)).
      intros l. apply acts_as_for_each. intros a.
      by apply acts_as_modify. }
    eapply ends_with_bind.
    { apply (acts_as_when_present _ _
               (λ l c, foldl (λ c a, let '(pl, ac, ev, pr, ro) := c in
                                     (pl, ac, ev, pr ++ [a], ro)) c l)).
      intros l. apply acts_as_for_each. intros a.
      by apply acts_as_modify. }
    eapply ends_with_bind.
    { apply (acts_as_when_present _ _ (λ _, Datatypes.id)). intros l.
      eapply acts_as_ext;
        [apply acts_as_for_each; intros entry; apply registerModel_acts|].
      intros c. apply foldl_id. }
    eapply ends_with_bind.
    { apply (acts_as_when_present _ _
               (λ l c, foldl (λ c a, let '(pl, ac, ev, pr, ro) := c in
                                     (pl, ac, ev, pr, ro ++ [a])) c l)).
      intros l. apply acts_as_for_each. intros a.
      by apply acts_as_modify. }
    eapply ends_with_bind; [|exact Hk].
    apply (acts_as_when_present _ _ (λ _, Datatypes.id)). intros l.
    eapply acts_as_ext.
    { apply acts_as_for_each. intros entry.
      eapply acts_as_ext;
        [apply acts_as_for_each; intros h; apply registerEvent_acts|].
      intros c. apply foldl_id. }
    intros c. apply (foldl_id l c). }
  intros [[[[pl ac] ev] pr] ro]. unfold contribute. simpl.
  destruct (plugin_adapter _), (plugin_actions _), (plugin_evaluators _),
    (plugin_providers _), (plugin_models _), (plugin_routes _),
    (plugin_events _); simpl;
    rewrite ?Hac, ?Hev, ?Hpr, ?Hro, ?app_nil_r; done.
Qed.

(** One install of a plugin without initialisation routine. *)
Lemma registerPlugin_collections (H : Heap) (p : ref) (w : World) :
  plugin_init (pluginAt H p) = None →
  collections (rt (registerPlugin H (Some p) w).2)
  = contribute H p (track H p (collections (rt w))).
Proof.
  intros Hinit.
  change (registerPlugin H (Some p) w)
    with (((if existsb (λ q, bool_decide (plugin_name (pluginAt H q)
                                          = plugin_name (pluginAt H p)))
                 (plugins (rt w))
            then ret tt
            else modify (λ r, with_plugins (plugins r ++ [p]) r)) ;;
           when_present (plugin_adapter (pluginAt H p))
             registerDatabaseAdapter ;;
           when_present (plugin_actions (pluginAt H p))
             (λ l, for_each l registerAction) ;;
           when_present (plugin_evaluators (pluginAt H p))
             (λ l, for_each l registerEvaluator) ;;
           when_present (plugin_providers (pluginAt H p))
             (λ l, for_each l registerContextProvider) ;;
           when_present (plugin_models (pluginAt H p))
             (λ l, for_each l (λ entry, registerModel entry.1 entry.2)) ;;
           when_present (plugin_routes (pluginAt H p))
             (λ l, for_each l
                     (λ route,
                        modify (λ r, with_routes (routes r ++ [route]) r))) ;;
           when_present (plugin_events (pluginAt H p))
             (λ l, for_each l
                     (λ entry, for_each entry.2 (registerEvent entry.1))) ;;
           when_present (plugin_services (pluginAt H p))
             (registerServices H) ;;
           when_present (plugin_init (pluginAt H p))
             (λ init, emit (PluginInit p) ;;
                      let* r := this in init (plugin_config (pluginAt H p)) r))
            w).
  rewrite Hinit.
  assert (ends_with
            (when_present (plugin_services (pluginAt H p))
               (registerServices H) ;;
             when_present (A:=JS.value → Runtime → M unit) None
               (λ init, emit (PluginInit p) ;;
                        let* r := this in
                        init (plugin_config (pluginAt H p)) r)) Datatypes.id) as Htail.
  { apply keeps_bind; [|intros; apply keeps_ret].
    destruct (plugin_services _); [apply registerServices_keeps|done]. }
  pose proof (contributions_act H p _ Htail) as Hrest.
  unfold bind at 1.
  destruct (existsb _ (plugins (rt w))) eqn:Et; simpl.
  - rewrite Hrest. unfold track, collections. by rewrite Et.
  - rewrite Hrest. unfold track, collections. simpl. by rewrite Et.
Qed.

(** X15. Installing a plugin (one without initialisation routine) tracks
    its name once and appends its actions, evaluators, providers and
    routes; installing it a second time leaves the plugins list as it is
    and appends the same actions, evaluators, providers and routes
    again. *)
Theorem registerPlugin_twice (H : Heap) (p : ref) (w : World) :
  plugin_init (pluginAt H p) = None →
  let w1 := (registerPlugin H (Some p) w).2 in
  let w2 := (registerPlugin H (Some p) w1).2 in
  plugins (rt w1)
  = (if tracked H p (rt w) then plugins (rt w) else plugins (rt w) ++ [p])
  ∧ plugins (rt w2) = plugins (rt w1)
  ∧ actions (rt w2)
    = actions (rt w) ++ default [] (plugin_actions (pluginAt H p))
        ++ default [] (plugin_actions (pluginAt H p))
  ∧ evaluators (rt w2)
    = evaluators (rt w) ++ default [] (plugin_evaluators (pluginAt H p))
        ++ default [] (plugin_evaluators (pluginAt H p))
  ∧ providers (rt w2)
    = providers (rt w) ++ default [] (plugin_providers (pluginAt H p))
        ++ default [] (plugin_providers (pluginAt H p))
  ∧ routes (rt w2)
    = routes (rt w) ++ default [] (plugin_routes (pluginAt H p))
        ++ default [] (plugin_routes (pluginAt H p)).
Proof.
  intros Hinit w1 w2.
  assert (collections (rt w1)
          = contribute H p (track H p (collections (rt w)))) as C1
    by apply (registerPlugin_collections H p w Hinit).
  assert (collections (rt w2)
          = contribute H p (track H p (collections (rt w1)))) as C2
    by apply (registerPlugin_collections H p w1 Hinit).
  clearbody w2. clearbody w1. rewrite C1 in C2.
  unfold collections, contribute, track, tracked in *. simpl in *.
  set (same := λ q, bool_decide (plugin_name (pluginAt H q)
                                 = plugin_name (pluginAt H p))) in *.
  assert (existsb same
            (if existsb same (plugins (rt w)) then plugins (rt w)
             else plugins (rt w) ++ [p]) = true) as Hnow.
  { destruct (existsb same (plugins (rt w))) eqn:E; [done|].
    rewrite existsb_app. simpl. unfold same at 2.
    rewrite bool_decide_eq_true_2 by done. by rewrite orb_true_r. }
  rewrite Hnow in C2.
  injection C1 as P1 _ _ _ _. injection C2 as P2 A2 E2 V2 R2.
  rewrite P1, P2, A2, E2, V2, R2, <- !app_assoc. done.
Qed.

Lemma registerPlugin_twice_witness :
  let w1 := (registerPlugin Sample.heap (Some 1) Sample.world).2 in
  let w2 := (registerPlugin Sample.heap (Some 1) w1).2 in
  plugins (rt w1) = [1] ∧ plugins (rt w2) = [1].
Proof.
  destruct (registerPlugin_twice Sample.heap 1 Sample.world eq_refl)
    as (P1 & P2 & _).
  split; [exact P1|]. etrans; [exact P2|exact P1].
Defined.

(** ** The registries and runners beside the composer *)

Lemma noted_nil s : noted [] s = s.
Proof. destruct s. unfold noted. simpl. by rewrite app_nil_r. Qed.

Lemma noted_app ns ns' s : noted ns' (noted ns s) = noted (ns ++ ns') s.
Proof. unfold noted. simpl. by rewrite app_assoc. Qed.

Lemma around_core s : around (core s) s = s.
Proof. by destruct s. Qed.

Lemma system_eta s :
  {| core := core s; taskWorkers := taskWorkers s; notices := notices s |}
  = s.
Proof. by destruct s. Qed.

Lemma registerTaskWorker_run (G : Registry) (t : ref) (s : System) :
  registerTaskWorker G t s
  = (Return tt,
     {| core := core s;
        taskWorkers := <[task_name (taskWorkerAt G t) := t]> (taskWorkers s);
        notices :=
          notices s
          ++ (if bool_decide
                   (is_Some (taskWorkers s !! task_name (taskWorkerAt G t)))
              then [WarnTaskAlreadyRegistered (task_name (taskWorkerAt G t))]
              else []) |}).
Proof.
  unfold registerTaskWorker, bindN, workers, set_workers, notice, retN.
  simpl. destruct (bool_decide _); simpl; [done|]. by rewrite app_nil_r.
Qed.

(** X16. Task workers are registered without failure and the last one
    registered under a name is the one [getTaskWorker] returns: after any
    sequence of registrations a name is bound to the last worker of the
    sequence that carries it, or as before when none does, and the
    runtime inside is untouched. *)
Theorem registerTaskWorker_last_wins (G : Registry) (l : list ref)
    (name : string) (s : System) :
  ∃ s', for_eachN l (registerTaskWorker G) s = (Return tt, s')
        ∧ core s' = core s
        ∧ getTaskWorker name s'
          = (Return (match last_named G name l with
                     | Some t => Some t
                     | None => taskWorkers s !! name
                     end), s').
Proof.
  revert s. induction l as [|t l IH]; intros s.
  - exists s. done.
  - simpl. unfold bindN at 1. rewrite registerTaskWorker_run.
    match goal with |- context [for_eachN l _ ?s1] =>
      destruct (IH s1) as (s' & E & C & L) end.
    exists s'. split; [done|]. split; [done|].
    rewrite L. f_equal. f_equal. unfold last_named.
    rewrite filter_cons. simpl.
    destruct (decide (task_name (taskWorkerAt G t) = name)) as [->|Hne].
    + rewrite last_cons, lookup_insert_eq. by destruct (last _).
    + by rewrite lookup_insert_ne.
Qed.

(** X17. A service whose registration returned can be looked up under its
    type: [getService] finds an instance without an error line, namely
    the one bound before when the type was taken and the one its factory
    started otherwise. *)
Theorem getService_after_registerService (H : Heap) (service : ref)
    (ty : string) (s s' : System) :
  service_type (serviceAt H service) = Some ty →
  lift (registerService H service) s = (Return tt, s') →
  ∃ instance,
    getService ty s' = (Return (Some instance), s')
    ∧ (services (rt (core s)) !! ty = Some instance
       ∨ services (rt (core s)) !! ty = None
         ∧ start (serviceAt H service) (rt (core s)) = Return instance).
Proof.
  intros Hty. unfold lift.
  pose proof (registerService_run H service (core s)) as Hrun.
  rewrite Hty in Hrun.
  destruct (services (rt (core s)) !! ty) as [i|] eqn:E.
  - rewrite Hrun. intros [= <-]. exists i. split; [|by left].
    unfold getService, bindN, lift, this. simpl. by rewrite E.
  - destruct (start (serviceAt H service) (rt (core s))) as [i|e] eqn:Es;
      rewrite Hrun; [|done].
    intros [= <-]. exists i. split; [|by right].
    unfold getService, bindN, lift, this, registered_world. simpl.
    by rewrite lookup_insert_eq.
Qed.

Lemma getService_after_registerService_witness :
  ∃ instance,
    getService "mail"
      (around (registered_world 7 "mail" 107 Sample.world)
         (boot Sample.world))
    = (Return (Some instance),
       around (registered_world 7 "mail" 107 Sample.world)
         (boot Sample.world))
    ∧ (services (rt (core (boot Sample.world))) !! "mail" = Some instance
       ∨ services (rt (core (boot Sample.world))) !! "mail" = None
         ∧ start (serviceAt Sample.heap 7) (rt (core (boot Sample.world)))
           = Return instance).
Proof.
  apply (getService_after_registerService Sample.heap 7 "mail"
           (boot Sample.world)).
  - reflexivity.
  - vm_compute. reflexivity.
Defined.

Lemma registerEvent_run (event : string) (h : ref) (w : World) :
  registerEvent event h w = (Return tt, listening event h w).
Proof.
  unfold registerEvent, listening, bind, this, modify, ret. simpl.
  destruct (events (rt w) !! event) as [l|] eqn:E.
  - rewrite bool_decide_eq_true_2 by done. simpl. do 3 f_equal.
    apply map_eq. intros k. destruct (decide (k = event)) as [->|Hk].
    + by rewrite lookup_alter_eq, lookup_insert_eq, E.
    + by rewrite lookup_alter_ne, lookup_insert_ne.
  - rewrite bool_decide_eq_false_2 by (intros [? ?]; congruence). simpl.
    do 2 f_equal. unfold with_events. simpl. f_equal.
    apply map_eq. intros k. destruct (decide (k = event)) as [->|Hk].
    + by rewrite lookup_alter_eq, !lookup_insert_eq.
    + by rewrite lookup_alter_ne, !lookup_insert_ne.
Qed.

Lemma registerEvent_each (event : string) (hs : list ref) (w : World) :
  ∃ w', for_each hs (registerEvent event) w = (Return tt, w')
        ∧ (∀ e, events (rt w') !! e
                = if decide (e = event)
                  then match hs with
                       | [] => events (rt w) !! event
                       | _ => Some (default [] (events (rt w) !! event) ++ hs)
                       end
                  else events (rt w) !! e)
        ∧ trace w' = trace w ∧ auditLog w' = auditLog w.
Proof.
  revert w. induction hs as [|h hs IH]; intros w.
  - exists w. split; [done|]. split; [|done].
    intros e. by destruct (decide _) as [->|].
  - destruct (IH (listening event h w)) as (w' & E & L & T & A).
    exists w'. simpl. unfold bind at 1. rewrite registerEvent_run.
    split; [done|]. split; [|done].
    intros e. rewrite L. destruct (decide (e = event)) as [->|Hne].
    + simpl. rewrite lookup_insert_eq. simpl.
      destruct hs; [done|]. by rewrite <- app_assoc.
    + simpl. by rewrite lookup_insert_ne.
Qed.

(** The inner loop of [emitEvent]: the listeners of one event. *)
Lemma listeners_run (G : Registry) (params : JS.value) (hs : list ref)
    (s : System) :
  for_eachN hs (λ handler,
    notice (ListenerCall handler params) ;;
    match listenerAt G handler params with
    | Throw e => throwN e
    | Return _ => retN tt
    end)%sys s
  = (match first_throw G params hs with
     | Some e => Throw e
     | None => Return tt
     end,
     noted ((λ h, ListenerCall h params) <$> called G params hs) s).
Proof.
  revert s. induction hs as [|h hs IH]; intros s; simpl.
  - by rewrite noted_nil.
  - unfold bindN at 1. unfold bindN at 1. unfold notice at 1.
    destruct (listenerAt G h params) as [[]|e]; simpl.
    + rewrite IH. f_equal. unfold noted. simpl. by rewrite <- app_assoc.
    + done.
Qed.

Lemma first_throw_app (G : Registry) params l l' :
  first_throw G params (l ++ l')
  = match first_throw G params l with
    | Some e => Some e
    | None => first_throw G params l'
    end.
Proof.
  induction l as [|h l IH]; simpl; [done|].
  by destruct (listenerAt G h params).
Qed.

Lemma called_app (G : Registry) params l l' :
  called G params (l ++ l')
  = match first_throw G params l with
    | Some _ => called G params l
    | None => l ++ called G params l'
    end.
Proof.
  induction l as [|h l IH]; simpl; [done|].
  destruct (listenerAt G h params); [|done].
  rewrite IH. by destruct (first_throw G params l).
Qed.

Lemma called_all (G : Registry) params l :
  first_throw G params l = None → called G params l = l.
Proof.
  induction l as [|h l IH]; simpl; [done|].
  destruct (listenerAt G h params); [|done]. intros ?. f_equal. auto.
Qed.

Lemma emit_names_run (G : Registry) (params : JS.value)
    (names : list string) (s : System) :
  emitEvent G (inr names) params s
  = (match first_throw G params (listeners (rt (core s)) (inr names)) with
     | Some e => Throw e
     | None => Return tt
     end,
     noted ((λ h, ListenerCall h params)
              <$> called G params (listeners (rt (core s)) (inr names))) s).
Proof.
  unfold emitEvent, listeners. revert s.
  induction names as [|n names IH]; intros s.
  - simpl. by rewrite noted_nil.
  - cbn [for_eachN fmap list_fmap mjoin list_join].
    unfold bindN at 1. unfold bindN at 1. unfold lift at 1, this at 1.
    cbn [fst snd]. rewrite system_eta.
    rewrite first_throw_app, called_app.
    destruct (events (rt (core s)) !! n) as [hs|] eqn:E; simpl.
    + rewrite listeners_run.
      destruct (first_throw G params hs) as [e|] eqn:Ef; [done|].
      rewrite IH. simpl. rewrite noted_app, fmap_app.
      by rewrite (called_all G params hs Ef).
    + rewrite IH. done.
Qed.

(** X18. [emitEvent] calls the listeners of the named events, event by
    event in the order of the names and listener by listener in the order
    of registration, each with the given parameters; the first listener
    that throws ends the emit with its error, after which no further
    listener is called; names without listeners are passed over, and
    the runtime inside and the task workers stay as they are. *)
Theorem emitEvent_calls (G : Registry) (event : string + list string)
    (params : JS.value) (s : System) :
  emitEvent G event params s
  = (match first_throw G params (listeners (rt (core s)) event) with
     | Some e => Throw e
     | None => Return tt
     end,
     noted ((λ h, ListenerCall h params)
              <$> called G params (listeners (rt (core s)) event)) s).
Proof.
  destruct event as [e|names]; [|apply emit_names_run].
  apply (emit_names_run G params [e] s).
Qed.

(** X19. Listeners registered for an event are reached by a later emit
    of it, after the listeners the event had before and in the order
    they were registered: when none of them throws, the emit calls
    exactly those listeners, each once. *)
Theorem registerEvent_then_emit (G : Registry) (event : string)
    (hs : list ref) (params : JS.value) (s : System) :
  let before := default [] (events (rt (core s)) !! event) in
  first_throw G params (before ++ hs) = None →
  ∃ s', lift (for_each hs (registerEvent event)) s = (Return tt, s')
        ∧ emitEvent G (inl event) params s'
          = (Return tt,
             noted ((λ h, ListenerCall h params) <$> before ++ hs) s').
Proof.
  intros before Hq.
  destruct (registerEvent_each event hs (core s)) as (w' & E & L & _).
  exists (around w' s). unfold lift. rewrite E. split; [done|].
  change (emitEvent G (inl event) params (around w' s))
    with (emitEvent G (inr [event]) params (around w' s)).
  rewrite (emit_names_run G params [event] (around w' s)).
  assert (listeners (rt (core (around w' s))) (inr [event]) = before ++ hs)
    as ->.
  { unfold listeners. simpl. rewrite app_nil_r, L.
    rewrite decide_True by done. destruct hs; [|done].
    by rewrite app_nil_r. }
  rewrite Hq. by rewrite (called_all G params _ Hq).
Qed.

Lemma registerEvent_then_emit_witness :
  ∃ s', lift (for_each [1; 2] (registerEvent "tick")) Cast.system
        = (Return tt, s')
        ∧ emitEvent Cast.registry (inl "tick") JS.VNull s'
          = (Return tt,
             noted ((λ h, ListenerCall h JS.VNull) <$> [] ++ [1; 2]) s').
Proof.
  apply (registerEvent_then_emit Cast.registry "tick" [1; 2] JS.VNull
           Cast.system).
  reflexivity.
Defined.

(** *** The evaluator runner *)

Lemma launch_cons {A} (m : N A) (l : list (N A)) (s : System) :
  launch (m :: l) s
  = match launch l (m s).2 with
    | (Return os, s2) => (Return ((m s).1 :: os), s2)
    | (Throw e, s2) => (Throw e, s2)
    end.
Proof.
  simpl. unfold bindN, settleN, retN. destruct (m s) as [o s1]. simpl.
  by destruct (launch l s1) as [[os|e] s2].
Qed.

Lemma launch_returns {A} (l : list (N A)) (s : System) :
  ∃ os s', launch l s = (Return os, s') ∧ length os = length l.
Proof.
  revert s. induction l as [|m l IH]; intros s.
  - by exists [], s.
  - rewrite launch_cons. destruct (IH (m s).2) as (os & s' & -> & Hl).
    exists ((m s).1 :: os), s'. simpl. by rewrite Hl.
Qed.

Lemma chosen_run (G : Registry) message state didRespond e (s : System) :
  chosen G message state didRespond e s
  = (verdict G (rt (core s)) message state didRespond e,
     noted (validations G message state didRespond [e]) s).
Proof.
  unfold chosen, verdict, validations, candidate.
  rewrite filter_cons, filter_nil. unfold candidate.
  destruct (evaluator_handler (evaluatorAt G e)) as [h|].
  - rewrite bool_decide_eq_true_2 by done.
    destruct (default false didRespond), (alwaysRun (evaluatorAt G e));
      simpl; rewrite ?noted_nil; try done;
      unfold bindN, lift, this, notice; simpl;
      by destruct (validate (evaluatorAt G e) (rt (core s)) message state)
        as [[]|].
  - rewrite bool_decide_eq_false_2 by (by intros [? ?]).
    simpl. by rewrite noted_nil.
Qed.

Lemma validations_cons (G : Registry) message state didRespond e l :
  validations G message state didRespond (e :: l)
  = validations G message state didRespond [e]
    ++ validations G message state didRespond l.
Proof.
  unfold validations. rewrite <- fmap_app. f_equal.
  rewrite !filter_cons, filter_nil. by destruct (decide _).
Qed.

Lemma launch_chosen (G : Registry) message state didRespond l (s : System) :
  launch (chosen G message state didRespond <$> l) s
  = (Return (verdict G (rt (core s)) message state didRespond <$> l),
     noted (validations G message state didRespond l) s).
Proof.
  revert s. induction l as [|e l IH]; intros s.
  - simpl. unfold retN. by rewrite noted_nil.
  - rewrite fmap_cons, launch_cons, chosen_run. cbn [fst snd].
    rewrite IH. cbn [core noted]. rewrite noted_app.
    by rewrite <- validations_cons.
Qed.

Lemma selected_verdict (G : Registry) r message state didRespond e :
  verdict G r message state didRespond e
  = match validate (evaluatorAt G e) r message state with
    | Throw err =>
        if candidate G didRespond e then Throw err else Return None
    | Return _ =>
        Return (if selected G r message state didRespond e then Some e
                else None)
    end.
Proof.
  unfold verdict, selected. destruct (candidate G didRespond e); simpl.
  - by destruct (validate _ _ _ _) as [[]|].
  - by destruct (validate _ _ _ _) as [[]|].
Qed.

Lemma selected_verdicts (G : Registry) r message state didRespond l :
  first_rejection (verdict G r message state didRespond <$> l) = None →
  omap Datatypes.id (returned (verdict G r message state didRespond <$> l))
  = filter (λ e, selected G r message state didRespond e) l.
Proof.
  induction l as [|e l IH]; [done|].
  rewrite fmap_cons, filter_cons, selected_verdict.
  destruct (validate (evaluatorAt G e) r message state) as [b|err] eqn:Ev.
  - simpl. intros Hq.
    destruct (selected G r message state didRespond e) eqn:Es; simpl.
    + f_equal. apply IH, Hq.
    + apply IH, Hq.
  - assert (selected G r message state didRespond e = false) as Es.
    { unfold selected. rewrite Ev. apply andb_false_r. }
    destruct (decide _) as [Hs|_]; [by rewrite Es in Hs|].
    destruct (candidate G didRespond e); simpl; [done|]. apply IH.
Qed.

(** [evaluate] after its first phase. *)
Lemma evaluate_first_phase (H : Heap) (G : Registry)
    (validated handled : nat → nat) message state didRespond callback
    responses (s : System) :
  let evs := evaluators (rt (core s)) in
  let s1 := noted (validations G message state didRespond evs) s in
  let l := filter (λ e, selected G (rt (core s)) message state didRespond e)
             evs in
  evaluate H G validated handled message state didRespond callback responses
    s
  = match first_in_time validated
            (verdict G (rt (core s)) message state didRespond <$> evs) with
    | Some e => (Throw e, s1)
    | None =>
        if bool_decide (length l = 0) then (Return [], s1)
        else
          (let* state :=
             lift (composeState H message
                     (Some ["RECENT_MESSAGES"; "EVALUATORS"]) None) in
           let* runs :=
             launch (handle G message state callback responses <$> l) in
           let* ends :=
             launch (conclude G message state
                       <$> (by_time handled (zip l runs)).*2) in
           match first_rejection ends with
           | Some error => throwN error
           | None => retN l
           end)%sys s1
    end.
Proof.
  intros evs s1 l. unfold evaluate.
  unfold bindN at 1. unfold lift at 1, this at 1. cbn [fst snd].
  rewrite system_eta. fold evs.
  unfold bindN at 1.
  rewrite launch_chosen. fold evs. fold s1.
  destruct (first_in_time validated _) as [e|] eqn:Eq; [done|].
  apply first_in_time_none in Eq.
  rewrite (selected_verdicts G _ _ _ _ _ Eq). fold l.
  by destruct (bool_decide (length l = 0)).
Qed.

Lemma handle_run (G : Registry) message st callback responses e h
    (s : System) :
  evaluator_handler (evaluatorAt G e) = Some h →
  handle G message st callback responses e s
  = (match (h (rt (core s)) message st callback responses (core s)).1 with
     | Return _ => Return true
     | Throw err => Throw err
     end,
     noted [EvaluatorCall e message st callback responses]
       (around (h (rt (core s)) message st callback responses (core s)).2
          s)).
Proof.
  intros Hh. unfold handle. rewrite Hh.
  unfold bindN, lift, this, notice, retN. simpl.
  by destruct (h (rt (core s)) message st callback responses (core s))
    as [[[]|err] w'].
Qed.

Lemma launch_handle (G : Registry) message st callback responses l
    (s : System) :
  (∀ e, e ∈ l → is_Some (evaluator_handler (evaluatorAt G e))) →
  ∃ os s',
    launch (handle G message st callback responses <$> l) s
    = (Return os, s')
    ∧ length os = length l
    ∧ Forall (λ o, o ≠ Return false) os
    ∧ notices s'
      = notices s
        ++ ((λ e, EvaluatorCall e message st callback responses) <$> l)
    ∧ taskWorkers s' = taskWorkers s.
Proof.
  revert s. induction l as [|e l IH]; intros s Hl.
  - exists [], s. simpl. by rewrite app_nil_r.
  - destruct (Hl e) as [h Hh]; [left|].
    rewrite fmap_cons, launch_cons, (handle_run _ _ _ _ _ _ h) by done.
    cbn [fst snd].
    match goal with |- context [launch _ ?s1] =>
      destruct (IH s1) as (os & s' & -> & Hlen & Hos & Hn & Ht) end.
    { intros e' He'. apply Hl. by right. }
    eexists _, s'. split; [done|]. simpl. split; [by rewrite Hlen|].
    split.
    { constructor; [|done].
      by destruct (h _ _ _ _ _ _).1. }
    split; [|done]. rewrite Hn. simpl. by rewrite <- app_assoc.
Qed.

Lemma conclude_logs (G : Registry) message st e (s : System) :
  conclude G message st (e, Return true) s
  = match adapter (rt (core s)) with
    | Some _ => (Return tt, noted [log_entry G message st e] s)
    | None => (Throw TypeError, s)
    end.
Proof.
  unfold conclude, log_evaluator, bindN, lift, getDatabaseAdapter, bind,
    this, ret. simpl. rewrite system_eta.
  by destruct (adapter (rt (core s))).
Qed.

Lemma launch_conclude (G : Registry) message st
    (rs : list (ref * Outcome bool)) (s : System) :
  Forall (λ r, r.2 ≠ Return false) rs →
  ∃ us s',
    launch (conclude G message st <$> rs) s = (Return us, s')
    ∧ (first_rejection us = None →
       s' = noted (log_entry G message st <$> rs.*1) s
       ∧ (rs ≠ [] → is_Some (adapter (rt (core s))))).
Proof.
  revert s. induction rs as [|[e o] rs IH]; intros s Hos.
  - exists [], s. simpl. by rewrite noted_nil.
  - apply Forall_cons in Hos as [Ho Hos]. simpl in Ho.
    rewrite fmap_cons, launch_cons.
    destruct o as [[]|err]; [|done|].
    + rewrite conclude_logs.
      destruct (adapter (rt (core s))) as [a|] eqn:Ea; cbn [fst snd].
      * destruct (IH (noted [log_entry G message st e] s) Hos)
          as (us & s' & -> & Hr).
        eexists _, s'. split; [done|]. simpl. intros Hq.
        destruct (Hr Hq) as [-> _]. split; [|done].
        by rewrite noted_app.
      * destruct (IH s Hos) as (us & s' & -> & Hr).
        eexists _, s'. split; [done|]. done.
    + change (conclude G message st (e, Throw err) s)
        with (Throw (A:=unit) err, s).
      cbn [fst snd].
      destruct (IH s Hos) as (us & s' & -> & Hr).
      eexists _, s'. split; [done|]. done.
Qed.

Lemma verdicts_none (G : Registry) r message state didRespond l :
  (∀ e, e ∈ l → candidate G didRespond e →
        validate (evaluatorAt G e) r message state = Return false) →
  first_rejection (verdict G r message state didRespond <$> l) = None
  ∧ filter (λ e, selected G r message state didRespond e) l = [].
Proof.
  induction l as [|e l IH]; intros Hl; [done|].
  destruct IH as [IH1 IH2]; [intros e' He'; apply Hl; by right|].
  rewrite fmap_cons, filter_cons, IH2. unfold verdict at 1, selected.
  destruct (candidate G didRespond e) eqn:Ec; simpl.
  - rewrite (Hl e) by (by left || by rewrite Ec). done.
  - done.
Qed.

(** X20. The fast path of [evaluate]: when the validation predicate of
    every evaluator that is tried (one with a handler that always runs,
    or any with a handler after a reply) returns false, [evaluate]
    returns the empty list having called those predicates and nothing
    else; the state is not recomposed, no handler runs and nothing is
    logged. In particular, without a reply and without always-run
    evaluators no predicate is called at all. *)
Theorem evaluate_fast_path (H : Heap) (G : Registry)
    (validated handled : nat → nat) message state didRespond callback
    responses (s : System) :
  (∀ e, e ∈ evaluators (rt (core s)) → candidate G didRespond e →
        validate (evaluatorAt G e) (rt (core s)) message state
        = Return false) →
  evaluate H G validated handled message state didRespond callback
    responses s
  = (Return [],
     noted (validations G message state didRespond
              (evaluators (rt (core s)))) s).
Proof.
  intros Hl. rewrite evaluate_first_phase.
  destruct (verdicts_none G _ _ _ _ _ Hl) as [Hq ->].
  by rewrite (proj2 (first_in_time_none validated _) Hq).
Qed.

Lemma evaluate_fast_path_witness :
  evaluate Sample.heap Cast.registry (λ i, i) (λ i, i) Sample.message
    emptyState None None None (Cast.judged [2; 3])
  = (Return [],
     noted (validations Cast.registry Sample.message emptyState None
              (evaluators (rt (core (Cast.judged [2; 3])))))
       (Cast.judged [2; 3])).
Proof.
  apply (evaluate_fast_path Sample.heap Cast.registry (λ i, i) (λ i, i)
           Sample.message emptyState None None None (Cast.judged [2; 3])).
  intros e He Hc. simpl in He.
  apply elem_of_cons in He as [->|He]; [destruct Hc|].
  apply list_elem_of_singleton in He as ->. destruct Hc.
Defined.

(** X21. When [evaluate] returns, the list it returns is the registered
    evaluators, in registration order, that have a handler, are tried
    (after a reply, or marked always-run) and whose validation predicate,
    given the caller's state, returned true. Each of them had its handler
    called once, in that order and with the state that [evaluate]
    recomposed rather than the caller's, before any log entry was
    written; then one log entry was written for each of them, in the
    order in which their handlers settled, which need not be the order of
    the calls. An empty list leaves the runtime as it was, and a
    non-empty one is returned with a database adapter bound. *)
Theorem evaluate_returns (H : Heap) (G : Registry)
    (validated handled : nat → nat) message state didRespond callback
    responses (s s' : System) (l : list ref) :
  evaluate H G validated handled message state didRespond callback responses
    s
  = (Return l, s') →
  let st := evaluation_state H message (core s) in
  l = filter (λ e, selected G (rt (core s)) message state didRespond e)
        (evaluators (rt (core s)))
  ∧ notices s'
    = notices s
      ++ validations G message state didRespond (evaluators (rt (core s)))
      ++ ((λ e, EvaluatorCall e message st callback responses) <$> l)
      ++ (log_entry G message st <$> (by_time handled l).*2)
  ∧ (by_time handled l).*2 ≡ₚ l
  ∧ taskWorkers s' = taskWorkers s
  ∧ match l with
    | [] => core s' = core s
    | _ :: _ => is_Some (adapter (rt (core s')))
    end.
Proof.
  rewrite evaluate_first_phase.
  destruct (first_in_time validated _) as [e|]; [done|].
  set (sel := filter _ (evaluators (rt (core s)))).
  case_bool_decide as Hlen.
  - intros [= <- <-]. apply nil_length_inv in Hlen. rewrite Hlen.
    simpl. by rewrite !app_nil_r.
  - unfold bindN at 1. unfold lift at 1. rewrite composeState_run.
    cbn [fst snd]. unfold evaluation_state. rewrite composeState_run.
    cbn [fst snd core noted].
    set (st := newState _ _).
    unfold bindN at 1.
    match goal with |- context [launch _ ?s1] =>
      destruct (launch_handle G message st callback responses sel s1)
        as (os & s2 & -> & Hos & Hno & Hn2 & Ht2) end.
    { intros e He. apply list_elem_of_filter in He as [He _].
      unfold selected, candidate in He.
      apply andb_prop_elim in He as [He _].
      apply andb_prop_elim in He as [He _].
      by apply bool_decide_unpack in He. }
    unfold bindN at 1.
    destruct (launch_conclude G message st
                (by_time handled (zip sel os)).*2 s2)
      as (us & s3 & -> & Hr).
    { rewrite by_time_perm. apply Forall_forall. intros [e o] Heo.
      apply elem_of_zip_r in Heo. simpl.
      by eapply Forall_forall in Hno. }
    destruct (first_rejection us) as [e|]; [done|].
    destruct Hr as [-> Had]; [done|].
    rewrite (by_time_zip handled sel os Hos) in *.
    unfold retN. intros [= <- <-].
    split; [done|]. split.
    { cbn [notices noted]. rewrite Hn2. simpl. by rewrite <- !app_assoc. }
    split; [apply by_time_perm|].
    split; [cbn [taskWorkers noted]; by rewrite Ht2|].
    destruct sel as [|e0 sel0] eqn:Es; [done|]. apply Had.
    intros Hnil. apply (f_equal length) in Hnil.
    rewrite length_fmap in Hnil.
    pose proof (Permutation_length (by_time_perm handled (zip (e0 :: sel0) os)))
      as Hp.
    rewrite length_fmap in Hp. rewrite Hp, length_zip in Hnil.
    simpl in Hos. rewrite Hos in Hnil. simpl in Hnil. lia.
Qed.

Lemma evaluate_returns_witness :
  let s := Cast.judged [0; 2] in
  let run :=
    evaluate Sample.heap Cast.registry (λ i, i) (λ i, 1 - i) Sample.message
      emptyState (Some true) None None s in
  let st := evaluation_state Sample.heap Sample.message (core s) in
  ([0; 2]
   = filter (λ e, selected Cast.registry (rt (core s)) Sample.message
                    emptyState (Some true) e)
       (evaluators (rt (core s)))
   ∧ notices run.2
     = notices s
       ++ validations Cast.registry Sample.message emptyState (Some true)
            (evaluators (rt (core s)))
       ++ ((λ e, EvaluatorCall e Sample.message st None None) <$> [0; 2])
       ++ (log_entry Cast.registry Sample.message st
             <$> (by_time (λ i, 1 - i) [0; 2]).*2)
   ∧ (by_time (λ i, 1 - i) [0; 2]).*2 ≡ₚ [0; 2]
   ∧ taskWorkers run.2 = taskWorkers s
   ∧ is_Some (adapter (rt (core run.2))))
  ∧ (by_time (λ i, 1 - i) [0; 2]).*2 = [2; 0].
Proof.
  intros s run st. split; [|reflexivity].
  apply (evaluate_returns Sample.heap Cast.registry (λ i, i) (λ i, 1 - i)
           Sample.message emptyState (Some true) None None s run.2 [0; 2]).
  vm_compute. reflexivity.
Defined.

(** X22. A validation predicate that throws makes [evaluate] throw: the
    error is that of the predicate whose rejection came first in time,
    which is one of the evaluators that are tried but need not be the
    first of them in registration order. The predicates of all
    evaluators that are tried have been called nonetheless, in
    registration order, while the state is not recomposed, no handler
    runs and nothing is logged. *)
Theorem evaluate_validation_throws (H : Heap) (G : Registry)
    (validated handled : nat → nat) message state didRespond callback
    responses (s : System) (err : Error) :
  first_in_time validated
    (verdict G (rt (core s)) message state didRespond
       <$> evaluators (rt (core s))) = Some err →
  evaluate H G validated handled message state didRespond callback responses
    s
  = (Throw err,
     noted (validations G message state didRespond
              (evaluators (rt (core s)))) s)
  ∧ ∃ e, e ∈ evaluators (rt (core s))
         ∧ candidate G didRespond e = true
         ∧ validate (evaluatorAt G e) (rt (core s)) message state
           = Throw err.
Proof.
  intros Hq. rewrite evaluate_first_phase. rewrite Hq. split; [done|].
  apply first_in_time_elem, list_elem_of_fmap in Hq as (e & He & Hin).
  exists e. split; [done|]. unfold verdict in He.
  destruct (candidate G didRespond e); [|done]. split; [done|].
  destruct (validate (evaluatorAt G e) (rt (core s)) message state)
    as [[]|]; congruence.
Qed.

Lemma evaluate_validation_throws_witness :
  (evaluate Sample.heap Cast.registry (λ i, i) (λ i, i) Sample.message
     emptyState None None None (Cast.judged [0; 1; 4])).1
  = Throw (Thrown "unsure")
  ∧ (evaluate Sample.heap Cast.registry (λ i, 4 - i) (λ i, i) Sample.message
       emptyState None None None (Cast.judged [0; 1; 4])).1
    = Throw (Thrown "lost").
Proof.
  split.
  - exact (f_equal fst
             (proj1 (evaluate_validation_throws Sample.heap Cast.registry
                       (λ i, i) (λ i, i) Sample.message emptyState None None
                       None (Cast.judged [0; 1; 4]) (Thrown "unsure")
                       eq_refl))).
  - exact (f_equal fst
             (proj1 (evaluate_validation_throws Sample.heap Cast.registry
                       (λ i, 4 - i) (λ i, i) Sample.message emptyState None
                       None None (Cast.judged [0; 1; 4]) (Thrown "lost")
                       eq_refl))).
Defined.

(** *** The embedding dimension *)

Lemma useModel_bound (H : Heap) (modelType : string) (params : JS.value)
    (h a : ref) (w : World) :
  adapter (rt w) = Some a →
  getModel (rt w) modelType = Some h →
  useModel H modelType params w
  = match modelAt H h (rt w) params with
    | Throw e => (Throw e, logged [ModelCall h params] w)
    | Return response =>
        (Return response,
         audited (useModel_entry (rt w) modelType params response)
           (logged [ModelCall h params] w))
    end.
Proof.
  intros Ha Hh. unfold useModel, adapter_log, getDatabaseAdapter.
  unfold bind at 1. unfold this at 1. rewrite Hh.
  unfold bind at 1. unfold emit at 1.
  destruct (modelAt H h (rt w) params) as [v|e]; [|done].
  unfold bind, this, audit, ret. simpl. by rewrite Ha.
Qed.

Lemma ensureEmbeddingDimension_run (H : Heap) (TEXT_EMBEDDING : string)
    (h a : ref) (s : System) :
  adapter (rt (core s)) = Some a →
  getModel (rt (core s)) TEXT_EMBEDDING = Some h →
  ensureEmbeddingDimension H TEXT_EMBEDDING s
  = match useModel H TEXT_EMBEDDING JS.VNull (core s) with
    | (Throw e, w) => (Throw e, around w s)
    | (Return embedding, w) =>
        if JS.truthy embedding && JS.truthy (length_of embedding)
        then (Return tt,
              noted [AdapterEnsureEmbeddingDimension (length_of embedding)]
                (around w s))
        else (Throw (complaint (rt (core s)) "Invalid embedding received"),
              around w s)
    end.
Proof.
  intros Ha Hh. unfold ensureEmbeddingDimension.
  unfold bindN at 1. unfold lift at 1, this at 1. cbn [fst snd].
  unfold bindN at 1. unfold lift at 1, getDatabaseAdapter, bind, this, ret.
  cbn [fst snd]. rewrite !system_eta, Ha, Hh.
  unfold catchN, bindN at 1, lift at 1.
  rewrite (useModel_bound H _ _ h a) by done.
  destruct (modelAt H h (rt (core s)) JS.VNull) as [v|e]; [|done].
  destruct (JS.truthy v), (JS.truthy (length_of v)); simpl; try done.
  unfold bindN, lift. simpl. by rewrite Ha.
Qed.

(** X23. When [ensureEmbeddingDimension] returns, the database adapter
    has been told one dimension, once: the length of what the first
    handler registered for the embedding model answered on a null input,
    and that length is truthy, so never zero and never missing. *)
Theorem ensureEmbeddingDimension_returns (H : Heap)
    (TEXT_EMBEDDING : string) (s s' : System) :
  ensureEmbeddingDimension H TEXT_EMBEDDING s = (Return tt, s') →
  ∃ (h : ref) (embedding : JS.value),
    is_Some (adapter (rt (core s)))
    ∧ getModel (rt (core s)) TEXT_EMBEDDING = Some h
    ∧ modelAt H h (rt (core s)) JS.VNull = Return embedding
    ∧ JS.truthy (length_of embedding) = true
    ∧ length_of embedding ≠ JS.VNum 0
    ∧ notices s'
      = notices s ++ [AdapterEnsureEmbeddingDimension (length_of embedding)].
Proof.
  destruct (adapter (rt (core s))) as [a|] eqn:Ha.
  - destruct (getModel (rt (core s)) TEXT_EMBEDDING) as [h|] eqn:Hh.
    + rewrite (ensureEmbeddingDimension_run H _ h a) by done.
      rewrite (useModel_bound H _ _ h a) by done.
      destruct (modelAt H h (rt (core s)) JS.VNull) as [v|e] eqn:Hv; [|done].
      destruct (JS.truthy v); [|done].
      destruct (JS.truthy (length_of v)) eqn:Hl; [|done].
      simpl. intros [= <-]. exists h, v.
      repeat split; try done.
      intros Hz. by rewrite Hz in Hl.
    + unfold ensureEmbeddingDimension, bindN, lift, getDatabaseAdapter,
        bind, this, ret, catchN. simpl. by rewrite Ha, Hh.
  - unfold ensureEmbeddingDimension, bindN, lift, getDatabaseAdapter,
      bind, this, ret. simpl. by rewrite Ha.
Qed.

Lemma ensureEmbeddingDimension_returns_witness :
  let s := Cast.system in
  ∃ (h : ref) (embedding : JS.value),
    is_Some (adapter (rt (core s)))
    ∧ getModel (rt (core s)) "TEXT" = Some h
    ∧ modelAt Sample.heap h (rt (core s)) JS.VNull = Return embedding
    ∧ JS.truthy (length_of embedding) = true
    ∧ length_of embedding ≠ JS.VNum 0
    ∧ notices (ensureEmbeddingDimension Sample.heap "TEXT" s).2
      = notices s ++ [AdapterEnsureEmbeddingDimension (length_of embedding)].
Proof.
  intros s.
  apply (ensureEmbeddingDimension_returns Sample.heap "TEXT" s
           (ensureEmbeddingDimension Sample.heap "TEXT" s).2).
  vm_compute. reflexivity.
Defined.



(** ** The constructor *)

(** X25. The constructor binds [opts.adapter] and nothing else: an
    adapter passed as [opts.databaseAdapter] is registered and then
    overwritten, so that it stays bound only when [opts.adapter] names
    one too, and a runtime built from [databaseAdapter] alone has no
    adapter; no warning is written either way. *)
Theorem constructor_adapter (stringToUuid : string → UUID)
    (bootstrapPlugin : ref) (opts : Options) (arrays : Arrays) :
  let built := (AgentRuntime stringToUuid bootstrapPlugin opts arrays).1 in
  getDatabaseAdapter (inside built)
  = (Return (opt_adapter opts), inside built)
  ∧ trace (inside built) = [].
Proof.
  unfold AgentRuntime. by destruct (opt_databaseAdapter opts).
Qed.

(** X26. The constructor appends the bootstrap plugin to the caller's
    own plugins array: building a second runtime from the same options
    finds the bootstrap plugin already there and appends it again, so
    the second runtime lists it twice, and so does the caller's array. *)
Theorem constructor_shares_plugins (stringToUuid : string → UUID)
    (bootstrapPlugin : ref) (opts : Options) (p : ref) (arrays : Arrays) :
  opt_plugins opts = Some p →
  opt_ignoreBootstrap opts = false →
  let first := AgentRuntime stringToUuid bootstrapPlugin opts arrays in
  let second := AgentRuntime stringToUuid bootstrapPlugin opts first.2 in
  plugins (rt (inside first.1)) = arrays p ++ [bootstrapPlugin]
  ∧ plugins (rt (inside second.1))
    = arrays p ++ [bootstrapPlugin; bootstrapPlugin]
  ∧ second.2 p = arrays p ++ [bootstrapPlugin; bootstrapPlugin].
Proof.
  intros Hp Hb. unfold AgentRuntime. rewrite Hp, Hb. simpl.
  rewrite ?decide_True by done. rewrite <- ?app_assoc. simpl.
  by destruct (opt_databaseAdapter opts).
Qed.

Lemma constructor_shares_plugins_witness :
  let opts :=
    {| opt_conversationLength := None; opt_agentId := None;
       opt_character := Sample.eliza; opt_character_id := None;
       opt_plugins := Some 0; opt_databaseAdapter := None;
       opt_adapter := None; opt_ignoreBootstrap := false |} in
  let arrays : Arrays := λ _, [1] in
  let first := AgentRuntime (λ s, s) 9 opts arrays in
  let second := AgentRuntime (λ s, s) 9 opts first.2 in
  plugins (rt (inside first.1)) = [1; 9]
  ∧ plugins (rt (inside second.1)) = [1; 9; 9]
  ∧ second.2 0 = [1; 9; 9].
Proof.
  intros opts arrays.
  apply (constructor_shares_plugins (λ s, s) 9 opts 0 arrays);
    reflexivity.
Defined.
